(** * Unused JavaScript audit: coverage decomposition and waste aggregation

    A shallow embedding of
    [lighthouse-core/audits/byte-efficiency/unused-javascript.js]:
    [_add], [findUsedAndUnused], [computeWaste] and [audit_], followed by the
    properties of the decomposition, of the per-resource waste and of the
    cross-sample aggregation.

    Numbers.  Offsets, execution counts and byte totals are the protocol's
    integers; JavaScript holds every integer below 2^53 exactly and adds and
    subtracts such integers exactly, so they are modelled in [Z].  The waste
    ratio is a quotient of two such integers and is not an integer: from the
    division on, values are IEEE 754 binary64 numbers, modelled by the
    standard library's [spec_float] with a 53 bit mantissa. *)

From Stdlib Require Import ZArith List Bool Lia String SpecFloat.
From Stdlib Require Import Sorted Permutation.
From Equations Require Import Equations.
Import ListNotations.
Local Open Scope Z_scope.

(** ** Completions

    A call either returns a value or throws.  The only operation of the audit
    that can throw is [Array.prototype.reduce] without an initial value, on an
    empty array. *)

Inductive exn : Type :=
| TypeError (message : string).

Inductive completion (A : Type) : Type :=
| Normal (v : A)
| Throw (e : exn).
Arguments Normal {A} v.
Arguments Throw {A} e.

Definition bind {A B : Type} (c : completion A) (k : A -> completion B)
  : completion B :=
  match c with
  | Normal v => k v
  | Throw e => Throw e
  end.

Notation "x <- c ;; k" := (bind c (fun x => k))
  (at level 61, c at next level, right associativity).

(** ** Numbers: binary64 *)

Module Number.

Definition number : Type := spec_float.

Definition prec : Z := 53.
Definition emax : Z := 1024.

(** The Number nearest to an integer (exact below 2^53). *)
Definition of_Z (z : Z) : number := binary_normalize prec emax z 0 false.

Definition zero : number := S754_zero false.

Definition mul : number -> number -> number := SFmul prec emax.
Definition div : number -> number -> number := SFdiv prec emax.

(** [a > b] and [a <= b]; both are false when an operand is NaN. *)
Definition gt (a b : number) : bool := SFltb b a.

(** ToBoolean on a Number: 0, -0 and NaN are falsy. *)
Definition truthy (x : number) : bool :=
  match x with
  | S754_zero _ | S754_nan => false
  | _ => true
  end.

(** [x || y] on Numbers. *)
Definition or (x y : number) : number := if truthy x then x else y.

(** [Math.round]: the nearest integer, ties towards +infinity; NaN,
    infinities and zeros are returned as they are, and a negative argument
    that rounds to zero gives -0. *)
Definition Math_round (x : number) : number :=
  match x with
  | S754_finite s m e =>
      if 0 <=? e then x
      else
        let n := (2 * cond_Zopp s (Zpos m) + 2 ^ (- e)) / 2 ^ (1 - e) in
        if n =? 0 then S754_zero s else of_Z n
  | _ => x
  end.

Definition is_nan (x : number) : bool :=
  match x with
  | S754_nan => true
  | _ => false
  end.

End Number.

Import Number.

(** ** Data model *)

(** A range as the coverage protocol reports it. *)
Record CoverageRange : Type := {
  startOffset : Z;
  endOffset : Z;
  count : Z
}.

(** [{used, unused}], the result type of the decomposition. *)
Record UsedUnused : Type := {
  used : Z;
  unused : Z
}.

(** A flattened range: [Object.assign({isUsed, span, used, unused}, range)].
    It has the fields of a [UsedUnused] and those of a [CoverageRange], and is
    passed where either is expected. *)
Record Range : Type := {
  isUsed : bool;
  span : Z;
  totals :> UsedUnused;
  raw :> CoverageRange
}.

Record FunctionCoverage : Type := {
  ranges : list CoverageRange
}.

Module Script.
Record t : Type := {
  url : string;
  functions : list FunctionCoverage
}.
End Script.

Module NetworkRecord.
Record t : Type := {
  url : string;
  transferSize : Z
}.
End NetworkRecord.

Module WasteResult.
Record t : Type := {
  url : string;
  totalBytes : Z;
  wastedBytes : number;
  wastedPercent : number;
  numUnused : nat
}.
End WasteResult.

Record Artifacts : Type := {
  JsUsage : list Script.t
}.

Record TableHeadings : Type := {
  heading_url : string;
  heading_numUnused : string;
  heading_totalKb : string;
  heading_potentialSavings : string
}.

Record AuditResult : Type := {
  results : list WasteResult.t;
  tableHeadings : TableHeadings
}.

(** ** Arrays and Maps *)

(** [l.slice(b, e)] and [l.slice(b)]. *)
Definition slice {A : Type} (b e : nat) (l : list A) : list A :=
  firstn (e - b) (skipn b l).

Definition sliceFrom {A : Type} (b : nat) (l : list A) : list A :=
  skipn b l.

(** [l.reduce(f)], without an initial value. *)
Definition reduce {A : Type} (f : A -> A -> A) (l : list A) : completion A :=
  match l with
  | [] => Throw (TypeError "Reduce of empty array with no initial value")
  | x :: xs => Normal (fold_left f xs x)
  end.

(** [l.sort(compare)]: a stable sort, a positive [compare a b] putting [b]
    first. *)
Fixpoint insert {A : Type} (compare : A -> A -> Z) (x : A) (l : list A)
  : list A :=
  match l with
  | [] => [x]
  | y :: tl =>
      if compare x y <=? 0 then x :: y :: tl
      else y :: insert compare x tl
  end.

Definition sort {A : Type} (compare : A -> A -> Z) (l : list A) : list A :=
  fold_right (insert compare) [] l.

(** A [Map] with string keys: entries in insertion order, a key at most
    once; [set] on a present key replaces the value in place. *)
Definition Map (V : Type) : Type := list (string * V).

Fixpoint Map_get {V : Type} (m : Map V) (k : string) : option V :=
  match m with
  | [] => None
  | (k', v) :: tl => if String.eqb k' k then Some v else Map_get tl k
  end.

Fixpoint Map_set {V : Type} (m : Map V) (k : string) (v : V) : Map V :=
  match m with
  | [] => [(k, v)]
  | (k', v') :: tl =>
      if String.eqb k' k then (k', v) :: tl
      else (k', v') :: Map_set tl k v
  end.

Definition Map_values {V : Type} (m : Map V) : list V := map snd m.

(** ** The audit *)

Definition IGNORE_THRESHOLD_IN_BYTES : Z := 2048.

Definition _add (objA objB : UsedUnused) : UsedUnused :=
  {| used := used objA + used objB;
     unused := unused objA + unused objB |}.

(** The loop
    [while (endIndex < ranges.length &&
            ranges[endIndex].startOffset < firstRange.endOffset) endIndex++],
    run on the elements from [endIndex] on. *)
Fixpoint advanceEndIndex (firstRange : Range) (pending : list Range)
  (endIndex : nat) : nat :=
  match pending with
  | [] => endIndex
  | r :: tl =>
      if startOffset r <? endOffset firstRange
      then advanceEndIndex firstRange tl (S endIndex)
      else endIndex
  end.

(** [(restOfRanges[0] && restOfRanges[0].startOffset) || firstRange.endOffset]:
    an absent first element and a start offset of 0 are both falsy. *)
Definition nextStartOf (firstRange : Range) (restOfRanges : list Range) : Z :=
  match restOfRanges with
  | [] => endOffset firstRange
  | r :: _ =>
      if startOffset r =? 0 then endOffset firstRange else startOffset r
  end.

(** The callback of [spanningRanges.reduce]. *)
Definition laterEnd (max next : Range) : Range :=
  if endOffset max >=? endOffset next then max else next.

Equations? findUsedAndUnused (ranges : list Range) : completion UsedUnused
  by wf (List.length ranges) lt :=
  findUsedAndUnused [] := Normal {| used := 0; unused := 0 |};
  findUsedAndUnused [r] := Normal (totals r);
  findUsedAndUnused (firstRange :: secondRange :: more) :=
    let ranges := firstRange :: secondRange :: more in
    if startOffset secondRange >=? endOffset firstRange then
      tail <- findUsedAndUnused (sliceFrom 1 ranges) ;;
      Normal
        (_add
           (_add firstRange
              {| used := startOffset secondRange - endOffset firstRange;
                 unused := 0 |})
           tail)
    else
      let endIndex := advanceEndIndex firstRange (sliceFrom 1 ranges) 1 in
      let spanningRanges := slice 1 endIndex ranges in
      let restOfRanges := sliceFrom endIndex ranges in
      if isUsed firstRange then
        let earliestStart := startOffset secondRange in
        latest <- reduce laterEnd spanningRanges ;;
        let latestEnd := endOffset latest in
        let nextStart := nextStartOf firstRange restOfRanges in
        let leftEdge :=
          {| used := earliestStart - startOffset firstRange; unused := 0 |} in
        let rightEdge := {| used := nextStart - latestEnd; unused := 0 |} in
        inner <- findUsedAndUnused spanningRanges ;;
        rest <- findUsedAndUnused restOfRanges ;;
        Normal (_add (_add leftEdge rightEdge) (_add inner rest))
      else
        rest <- findUsedAndUnused restOfRanges ;;
        Normal (_add firstRange rest).
Proof.
  all: assert (Hge : forall pending n,
                 (n <= advanceEndIndex firstRange pending n)%nat)
    by (induction pending as [|r tl IH]; intros n; cbn [advanceEndIndex];
        [lia | destruct (startOffset r <? endOffset firstRange);
               [specialize (IH (S n)) |]; lia]).
  all: assert (Hdrop : forall b, (1 <= b)%nat ->
                 (List.length (skipn b (firstRange :: secondRange :: more))
                  < S (S (List.length more)))%nat)
    by (intros b Hb; rewrite length_skipn; cbn [List.length]; lia).
  all: try exact (Hdrop 1%nat (le_n 1)).
  all: try exact (Hdrop endIndex (Hge (secondRange :: more) 1%nat)).
  all: unfold spanningRanges, slice; rewrite length_firstn;
    apply Nat.le_lt_trans with (2 := Hdrop 1%nat (le_n 1)); apply Nat.le_min_r.
Qed.

(** The flattening loops of [computeWaste]: one [Range] per protocol range,
    in order, and the number of functions none of whose ranges is used. *)
Definition flattenRange (range : CoverageRange) : Range :=
  let isUsed := 0 <? count range in
  let span := endOffset range - startOffset range in
  let used := if isUsed then span else 0 in
  let unused := if isUsed then 0 else span in
  {| isUsed := isUsed; span := span;
     totals := {| used := used; unused := unused |};
     raw := range |}.

Definition forEachRange (state : bool * list Range) (range : CoverageRange)
  : bool * list Range :=
  let '(functionIsUsed, ranges) := state in
  let r := flattenRange range in
  (functionIsUsed || isUsed r, ranges ++ [r]).

Definition forEachFunction (state : nat * list Range) (func : FunctionCoverage)
  : nat * list Range :=
  let '(numUnusedFunctions, ranges0) := state in
  let '(functionIsUsed, ranges1) :=
    fold_left forEachRange (ranges func) (false, ranges0) in
  (if negb functionIsUsed then S numUnusedFunctions else numUnusedFunctions,
   ranges1).

(** [rangeA.startOffset - rangeB.startOffset ||
     rangeB.endOffset - rangeA.endOffset]. *)
Definition compareRanges (rangeA rangeB : Range) : Z :=
  let byStart := startOffset rangeA - startOffset rangeB in
  if byStart =? 0 then endOffset rangeB - endOffset rangeA else byStart.

Definition wastedRatioOf (results : UsedUnused) : number :=
  or (div (of_Z (unused results)) (of_Z (unused results + used results))) zero.

Section Audit.

(** [URL.getDisplayName] of [lib/url-shim], which is not part of the
    sources at hand: any function from URLs to display names. *)
Variable getDisplayName : string -> string.

Definition computeWaste (script : Script.t)
  (networkRecord : NetworkRecord.t) : completion WasteResult.t :=
  let url := getDisplayName (Script.url script) in
  let '(numUnusedFunctions, ranges) :=
    fold_left forEachFunction (Script.functions script) (0%nat, []) in
  let ranges := sort compareRanges ranges in
  results <- findUsedAndUnused ranges ;;
  let wastedRatio := wastedRatioOf results in
  let totalBytes := NetworkRecord.transferSize networkRecord in
  let wastedBytes := Math_round (mul (of_Z totalBytes) wastedRatio) in
  Normal
    {| WasteResult.url := url;
       WasteResult.totalBytes := totalBytes;
       WasteResult.wastedBytes := wastedBytes;
       WasteResult.wastedPercent := mul (of_Z 100) wastedRatio;
       WasteResult.numUnused := numUnusedFunctions |}.

(** The callback of [artifacts.JsUsage.reduce]. *)
Definition consolidate (networkRecords : list NetworkRecord.t)
  (results : Map WasteResult.t) (script : Script.t)
  : completion (Map WasteResult.t) :=
  match
    find (fun record =>
            String.eqb (NetworkRecord.url record) (Script.url script))
      networkRecords
  with
  | None => Normal results
  | Some networkRecord =>
      result <- computeWaste script networkRecord ;;
      match Map_get results (WasteResult.url result) with
      | None => Normal (Map_set results (WasteResult.url result) result)
      | Some existing =>
          if gt (WasteResult.wastedBytes existing)
               (WasteResult.wastedBytes result)
          then Normal (Map_set results (WasteResult.url result) result)
          else Normal results
      end
  end.

Fixpoint reduceScripts (networkRecords : list NetworkRecord.t)
  (scripts : list Script.t) (results : Map WasteResult.t)
  : completion (Map WasteResult.t) :=
  match scripts with
  | [] => Normal results
  | script :: tl =>
      results' <- consolidate networkRecords results script ;;
      reduceScripts networkRecords tl results'
  end.

Definition resultsMapOf (artifacts : Artifacts)
  (networkRecords : list NetworkRecord.t) : completion (Map WasteResult.t) :=
  reduceScripts networkRecords (JsUsage artifacts) [].

Definition aboveThreshold (item : WasteResult.t) : bool :=
  gt (WasteResult.wastedBytes item) (of_Z IGNORE_THRESHOLD_IN_BYTES).

Definition audit_ (artifacts : Artifacts)
  (networkRecords : list NetworkRecord.t) : completion AuditResult :=
  resultsMap <- resultsMapOf artifacts networkRecords ;;
  let results := filter aboveThreshold (Map_values resultsMap) in
  Normal
    {| results := results;
       tableHeadings :=
         {| heading_url := "URL";
            heading_numUnused := "Unused Functions";
            heading_totalKb := "Original";
            heading_potentialSavings := "Potential Savings" |} |}.

End Audit.

(** ** Vocabulary of the specification *)

(** The longest prefix whose elements satisfy [p], and what follows it. *)
Fixpoint takeWhile {A : Type} (p : A -> bool) (l : list A) : list A :=
  match l with
  | [] => []
  | x :: tl => if p x then x :: takeWhile p tl else []
  end.

Fixpoint dropWhile {A : Type} (p : A -> bool) (l : list A) : list A :=
  match l with
  | [] => []
  | x :: tl => if p x then dropWhile p tl else l
  end.

(** [r] starts before [firstRange] ends: the loop test of the nested case. *)
Definition startsInside (firstRange : Range) (r : Range) : bool :=
  startOffset r <? endOffset firstRange.

(** The derived fields of a range, as [computeWaste] fills them in. *)
Definition derived (r : Range) : Prop :=
  span r = endOffset r - startOffset r /\
  used r = (if isUsed r then span r else 0) /\
  unused r = (if isUsed r then 0 else span r).

(** Offsets are unsigned and a range is not empty. *)
Definition wellFormed (r : CoverageRange) : Prop :=
  0 <= startOffset r /\ startOffset r < endOffset r.

(** The order of the decomposer's precondition: start ascending, and end
    descending among equal starts. *)
Definition precedes (a b : CoverageRange) : Prop :=
  startOffset a < startOffset b \/
  (startOffset a = startOffset b /\ endOffset b <= endOffset a).

Definition byStart (a b : CoverageRange) : Prop :=
  startOffset a <= startOffset b.

Definition sortedRanges (l : list Range) : Prop :=
  ForallOrdPairs (fun a b : Range => precedes a b) l.

Definition sortedByStart (l : list Range) : Prop :=
  ForallOrdPairs (fun a b : Range => byStart a b) l.

(** Two ranges nest properly: they are disjoint, or one lies within the
    other. *)
Definition laminar (a b : CoverageRange) : Prop :=
  endOffset a <= startOffset b \/ endOffset b <= startOffset a \/
  (startOffset a <= startOffset b /\ endOffset b <= endOffset a) \/
  (startOffset b <= startOffset a /\ endOffset a <= endOffset b).

Definition properlyNested (l : list Range) : Prop :=
  ForallOrdPairs (fun a b : Range => laminar a b) l.

(** The greatest end offset of a sequence that starts with [r]. *)
Definition maxEnd (r : Range) (l : list Range) : Z :=
  fold_left (fun acc (x : Range) => Z.max acc (endOffset x)) l (endOffset r).

(** [r] lies within [p] and is not the same span. *)
Definition nestedIn (r p : Range) : bool :=
  (startOffset p <=? startOffset r) && (endOffset r <=? endOffset p) &&
  negb ((startOffset p =? startOffset r) && (endOffset p =? endOffset r)).

(** The top-level spans: the ranges nested in no other. *)
Definition topLevel (l : list Range) : list Range :=
  filter (fun r => negb (existsb (nestedIn r) l)) l.

Definition covers (x : Z) (r : Range) : bool :=
  (startOffset r <=? x) && (x <? endOffset r).

(** The offsets [lo], [lo + 1], ..., [hi - 1]. *)
Definition offsets (lo hi : Z) : list Z :=
  map (fun i => lo + Z.of_nat i) (seq 0 (Z.to_nat (hi - lo))).

(** The byte offsets between the first start and the last end. *)
Definition extent (l : list Range) : list Z :=
  match l with
  | [] => []
  | r :: tl => offsets (startOffset r) (maxEnd r tl)
  end.

(** The length of the union of the top-level spans: the number of offsets
    that some top-level range covers. *)
Definition totalSpanCovered (l : list Range) : Z :=
  Z.of_nat
    (List.length (filter (fun x => existsb (covers x) (topLevel l)) (extent l))).

(** The bytes between the first start and the last end that no top-level
    range covers: the gaps between siblings. *)
Definition gapBytes (l : list Range) : Z :=
  Z.of_nat
    (List.length
       (filter (fun x => negb (existsb (covers x) (topLevel l))) (extent l))).

(** The flattened and sorted ranges of a script, and its decomposition. *)
Definition flattened (script : Script.t) : list Range :=
  snd (fold_left forEachFunction (Script.functions script) (0%nat, [])).

Definition sortedRangesOf (script : Script.t) : list Range :=
  sort compareRanges (flattened script).

(** The protocol ranges of a script, function after function. *)
Definition protocolRanges (script : Script.t) : list CoverageRange :=
  flat_map ranges (Script.functions script).


(** A range built the way the tests build theirs. *)
Definition mkRange (u : bool) (s e : Z) : Range :=
  flattenRange {| startOffset := s; endOffset := e;
                  count := if u then 1 else 0 |}.

(** In a sorted, properly nested sequence a later range starts no earlier,
    and either starts after the earlier one ends or ends within it. *)
Definition fits (a b : CoverageRange) : Prop :=
  startOffset a <= startOffset b /\
  (endOffset a <= startOffset b \/ endOffset b <= endOffset a).

(** The distance from the first start to the last end. *)
Definition hull (l : list Range) : Z :=
  match l with
  | [] => 0
  | r :: tl => maxEnd r tl - startOffset r
  end.

(** ** The fixtures of the unit tests *)

Definition generateRecord (url : string) (transferSize : Z) : NetworkRecord.t :=
  {| NetworkRecord.url := "https://google.com/" ++ url;
     NetworkRecord.transferSize := transferSize |}.

Definition generateScript (url : string) (ranges : list (Z * Z * bool))
  : Script.t :=
  {| Script.url := "https://google.com/" ++ url;
     Script.functions :=
       map (fun range : Z * Z * bool =>
              let '(s, e, u) := range in
              {| ranges :=
                   [{| startOffset := s; endOffset := e;
                       count := if u then 1 else 0 |}] |})
         ranges |}.

Definition scriptUsage : Script.t :=
  generateScript "myscript.js"
    [(0, 100, true);
     (0, 10, true); (0, 40, true); (20, 40, false);
     (60, 100, false); (70, 80, false);
     (100, 150, false); (180, 200, false); (100, 200, true)].

Definition scriptA : Script.t := generateScript "scriptA.js" [(0, 100, true)].
Definition scriptADuplicate : Script.t :=
  generateScript "scriptA.js" [(0, 100, true)].
Definition scriptB : Script.t :=
  generateScript "scriptB.js" [(0, 100, true); (0, 50, false)].
Definition scriptBDuplicate : Script.t :=
  generateScript "scriptB.js" [(0, 100, false)].
Definition recordA : NetworkRecord.t := generateRecord "scriptA.js" 35000.
Definition recordB : NetworkRecord.t := generateRecord "scriptB.js" 50000.

(** A stand-in for [URL.getDisplayName] in the examples: the URL itself. *)
Definition wholeUrl (url : string) : string := url.





(** The sample of a script: the result for the script joined with the first
    network record of the same URL, if there is one. *)
Definition sampleOf (getDisplayName : string -> string)
  (networkRecords : list NetworkRecord.t) (script : Script.t)
  : option WasteResult.t :=
  match
    find (fun record =>
            String.eqb (NetworkRecord.url record) (Script.url script))
      networkRecords
  with
  | None => None
  | Some networkRecord =>
      match computeWaste getDisplayName script networkRecord with
      | Normal result => Some result
      | Throw _ => None
      end
  end.

(** The deduplication map after the scripts [processed]: a URL at most
    once; every entry is the sample of a processed script and is filed under
    its own URL; and for every sample of a processed script the map holds,
    under the URL of the sample, an entry that the sample is not smaller
    than. *)
Definition consolidated (getDisplayName : string -> string)
  (networkRecords : list NetworkRecord.t) (processed : list Script.t)
  (m : Map WasteResult.t) : Prop :=
  NoDup (map fst m) /\
  (forall k v,
     In (k, v) m ->
     WasteResult.url v = k /\
     exists script,
       In script processed /\
       sampleOf getDisplayName networkRecords script = Some v) /\
  (forall script result,
     In script processed ->
     sampleOf getDisplayName networkRecords script = Some result ->
     exists kept,
       Map_get m (WasteResult.url result) = Some kept /\
       gt (WasteResult.wastedBytes kept) (WasteResult.wastedBytes result)
       = false).

(** The unused bytes that the ranges report themselves, one by one. *)
Definition sumUnused (l : list Range) : Z :=
  fold_right (fun (r : Range) acc => unused r + acc) 0 l.

Definition sumUsed (l : list Range) : Z :=
  fold_right (fun (r : Range) acc => used r + acc) 0 l.

(** The bytes between consecutive ranges of a sequence. *)
Fixpoint sumGaps (l : list Range) : Z :=
  match l with
  | a :: ((b :: _) as tl) => (startOffset b - endOffset a) + sumGaps tl
  | _ => 0
  end.

(** No range starts before the one in front of it ends. *)
Fixpoint flat (l : list Range) : Prop :=
  match l with
  | a :: ((b :: _) as tl) => endOffset a <= startOffset b /\ flat tl
  | _ => True
  end.

(** No range of the function was executed. *)
Definition neverExecuted (func : FunctionCoverage) : bool :=
  forallb (fun r => negb (0 <? count r)) (ranges func).

(** What bounds the nested children of [firstRange]: the end of
    [firstRange] when nothing follows them at their level, and the last end
    of what follows them otherwise. *)
Definition boundAfter (firstRange : Range) (restOfRanges : list Range) : Z :=
  match restOfRanges with
  | [] => endOffset firstRange
  | next :: others => maxEnd next others
  end.

(** What follows the nested children of [firstRange] at their level, if
    anything does, starts where [firstRange] ends. *)
Definition startsAtEndOf (firstRange : Range) (restOfRanges : list Range)
  : Prop :=
  match restOfRanges with
  | [] => True
  | next :: _ => startOffset next = endOffset firstRange
  end.

(** No byte is lost at any level of nesting that the decomposition visits.
    The level of a range is made of the range, of its nested children (the
    ranges after it that start inside it) and of what follows them up to the
    end of the enclosing level.  At every level, the children of a range end
    no later than [boundAfter]; an unused range that has children is
    followed at its level by nothing or by a range that starts where it
    ends; the children of a used range and what follows the children of any
    range are such levels again.  The children of an unused range are not
    visited. *)
Inductive noLostBytes : list Range -> Prop :=
| NLB_empty : noLostBytes []
| NLB_single (r : Range) : noLostBytes [r]
| NLB_siblings (a b : Range) (m : list Range) :
    endOffset a <= startOffset b ->
    noLostBytes (b :: m) ->
    noLostBytes (a :: b :: m)
| NLB_used_parent (a b : Range) (m : list Range) :
    startOffset b < endOffset a ->
    isUsed a = true ->
    noLostBytes (b :: takeWhile (startsInside a) m) ->
    noLostBytes (dropWhile (startsInside a) m) ->
    maxEnd b (takeWhile (startsInside a) m)
    <= boundAfter a (dropWhile (startsInside a) m) ->
    noLostBytes (a :: b :: m)
| NLB_unused_parent (a b : Range) (m : list Range) :
    startOffset b < endOffset a ->
    isUsed a = false ->
    noLostBytes (dropWhile (startsInside a) m) ->
    maxEnd b (takeWhile (startsInside a) m)
    <= boundAfter a (dropWhile (startsInside a) m) ->
    startsAtEndOf a (dropWhile (startsInside a) m) ->
    noLostBytes (a :: b :: m).



(** ** Completions and slices *)

(** Splits a statement about every element, or every ordered pair, of an
    explicit list into one goal for each. *)
Ltac each_pair :=
  repeat first
    [ apply FOP_nil | apply FOP_cons | apply Forall_nil | apply Forall_cons ].


Lemma bind_Normal {A B : Type} (v : A) (k : A -> completion B) :
  (x <- Normal v ;; k x) = k v.
Proof. reflexivity. Qed.

Lemma length_takeWhile_le {A : Type} (p : A -> bool) (l : list A) :
  (List.length (takeWhile p l) <= List.length l)%nat.
Proof.
  induction l as [|x tl IH]; cbn; [lia|].
  destruct (p x); cbn; lia.
Qed.

Lemma length_dropWhile_le {A : Type} (p : A -> bool) (l : list A) :
  (List.length (dropWhile p l) <= List.length l)%nat.
Proof.
  induction l as [|x tl IH]; cbn; [lia|].
  destruct (p x); cbn; lia.
Qed.

Lemma takeWhile_dropWhile {A : Type} (p : A -> bool) (l : list A) :
  takeWhile p l ++ dropWhile p l = l.
Proof.
  induction l as [|x tl IH]; cbn; [reflexivity|].
  destruct (p x); cbn; [now rewrite IH | reflexivity].
Qed.

Lemma firstn_takeWhile {A : Type} (p : A -> bool) (l : list A) :
  firstn (List.length (takeWhile p l)) l = takeWhile p l.
Proof.
  induction l as [|x tl IH]; cbn; [reflexivity|].
  destruct (p x); cbn; [now rewrite IH | reflexivity].
Qed.

Lemma skipn_takeWhile {A : Type} (p : A -> bool) (l : list A) :
  skipn (List.length (takeWhile p l)) l = dropWhile p l.
Proof.
  induction l as [|x tl IH]; cbn; [reflexivity|].
  destruct (p x); cbn; [now rewrite IH | reflexivity].
Qed.

Lemma advanceEndIndex_takeWhile (a : Range) (l : list Range) (n : nat) :
  advanceEndIndex a l n
  = (n + List.length (takeWhile (startsInside a) l))%nat.
Proof.
  revert n. induction l as [|r tl IH]; intros n; cbn; [lia|].
  unfold startsInside at 1.
  destruct (startOffset r <? endOffset a); cbn; [rewrite IH|]; lia.
Qed.

(** In the nested case the loop leaves the second range and the ranges after
    it that start inside the first in [spanningRanges], and the others in
    [restOfRanges]. *)
Lemma spanningRanges_eq (a b : Range) (m : list Range) :
  startsInside a b = true ->
  slice 1 (advanceEndIndex a (sliceFrom 1 (a :: b :: m)) 1) (a :: b :: m)
  = b :: takeWhile (startsInside a) m.
Proof.
  intros Hb. unfold slice, sliceFrom. rewrite advanceEndIndex_takeWhile.
  cbn [skipn]. replace (1 + _ - 1)%nat
    with (List.length (takeWhile (startsInside a) (b :: m))) by lia.
  rewrite firstn_takeWhile. cbn. now rewrite Hb.
Qed.

Lemma restOfRanges_eq (a b : Range) (m : list Range) :
  startsInside a b = true ->
  sliceFrom (advanceEndIndex a (sliceFrom 1 (a :: b :: m)) 1) (a :: b :: m)
  = dropWhile (startsInside a) m.
Proof.
  intros Hb. unfold sliceFrom. rewrite advanceEndIndex_takeWhile.
  cbn [skipn Nat.add]. rewrite skipn_takeWhile. cbn. now rewrite Hb.
Qed.

(** ** The three recursive cases of [findUsedAndUnused] *)

Lemma findUsedAndUnused_disjoint (a b : Range) (m : list Range) :
  endOffset a <= startOffset b ->
  findUsedAndUnused (a :: b :: m)
  = (tail <- findUsedAndUnused (b :: m) ;;
     Normal
       (_add (_add a {| used := startOffset b - endOffset a; unused := 0 |})
          tail)).
Proof.
  intros H. rewrite findUsedAndUnused_equation_3. cbv zeta.
  rewrite Z.geb_leb. destruct (Z.leb_spec (endOffset a) (startOffset b));
    [reflexivity | lia].
Qed.

Lemma findUsedAndUnused_nested_unused (a b : Range) (m : list Range) :
  startOffset b < endOffset a ->
  isUsed a = false ->
  findUsedAndUnused (a :: b :: m)
  = (rest <- findUsedAndUnused (dropWhile (startsInside a) m) ;;
     Normal (_add a rest)).
Proof.
  intros H Hu. rewrite findUsedAndUnused_equation_3. cbv zeta.
  rewrite Z.geb_leb. destruct (Z.leb_spec (endOffset a) (startOffset b));
    [lia|].
  rewrite Hu, restOfRanges_eq; [reflexivity|].
  unfold startsInside. now apply Z.ltb_lt.
Qed.

Lemma findUsedAndUnused_nested_used (a b : Range) (m : list Range) :
  startOffset b < endOffset a ->
  isUsed a = true ->
  findUsedAndUnused (a :: b :: m)
  = let spanningRanges := b :: takeWhile (startsInside a) m in
    let restOfRanges := dropWhile (startsInside a) m in
    let latestEnd :=
      endOffset (fold_left laterEnd (takeWhile (startsInside a) m) b) in
    let leftEdge :=
      {| used := startOffset b - startOffset a; unused := 0 |} in
    let rightEdge :=
      {| used := nextStartOf a restOfRanges - latestEnd; unused := 0 |} in
    inner <- findUsedAndUnused spanningRanges ;;
    rest <- findUsedAndUnused restOfRanges ;;
    Normal (_add (_add leftEdge rightEdge) (_add inner rest)).
Proof.
  intros H Hu. rewrite findUsedAndUnused_equation_3. cbv zeta.
  rewrite Z.geb_leb. destruct (Z.leb_spec (endOffset a) (startOffset b));
    [lia|].
  assert (Hb : startsInside a b = true)
    by (unfold startsInside; now apply Z.ltb_lt).
  rewrite Hu, restOfRanges_eq, spanningRanges_eq by assumption.
  reflexivity.
Qed.

(** [reduce] is only ever called on a non-empty [spanningRanges], so the
    decomposition returns on every input. *)
Lemma findUsedAndUnused_returns (l : list Range) :
  exists v, findUsedAndUnused l = Normal v.
Proof.
  remember (List.length l) as n eqn:Hn.
  revert l Hn. induction n as [n IH] using lt_wf_ind. intros l Hn.
  destruct l as [|a [|b m]].
  - eexists. now rewrite findUsedAndUnused_equation_1.
  - eexists. now rewrite findUsedAndUnused_equation_2.
  - cbn [List.length] in Hn.
    pose proof (length_takeWhile_le (startsInside a) m) as Ht.
    pose proof (length_dropWhile_le (startsInside a) m) as Hd.
    destruct (Z.le_gt_cases (endOffset a) (startOffset b)) as [Hdis | Hnest].
    + destruct (IH (List.length (b :: m)) ltac:(cbn; lia) (b :: m) eq_refl)
        as [t Ht'].
      rewrite findUsedAndUnused_disjoint, Ht' by assumption. eexists.
      reflexivity.
    + destruct (IH (List.length (dropWhile (startsInside a) m))
                  ltac:(lia) _ eq_refl) as [r Hr].
      destruct (isUsed a) eqn:Hu.
      * destruct (IH (List.length (b :: takeWhile (startsInside a) m))
                    ltac:(cbn; lia) _ eq_refl) as [i Hi].
        rewrite findUsedAndUnused_nested_used by (assumption || lia).
        cbv zeta. rewrite Hi, Hr. eexists. reflexivity.
      * rewrite findUsedAndUnused_nested_unused, Hr by (assumption || lia).
        eexists. reflexivity.
Qed.

(** ** The examples of the unit tests for [findUsedAndUnused] *)

Example findUsedAndUnused_empty :
  findUsedAndUnused [] = Normal {| used := 0; unused := 0 |}.
Proof. now rewrite findUsedAndUnused_equation_1. Qed.

Example findUsedAndUnused_single (r : Range) :
  findUsedAndUnused [r] = Normal (totals r).
Proof. now rewrite findUsedAndUnused_equation_2. Qed.

Example findUsedAndUnused_series :
  findUsedAndUnused [mkRange true 0 100; mkRange false 100 120]
  = Normal {| used := 100; unused := 20 |}.
Proof. vm_compute. reflexivity. Qed.

Example findUsedAndUnused_used_nested :
  findUsedAndUnused
    [mkRange true 0 100; mkRange true 10 50; mkRange false 20 30;
     mkRange true 75 90]
  = Normal {| used := 90; unused := 10 |}.
Proof. vm_compute. reflexivity. Qed.

(** ** The disjoint case *)

(** C4.  When the sequence has at least two elements and the second range
    starts at or after the end of the first, the used total is the used
    bytes of the first range, plus the bytes of the gap between the two, plus
    the used total of the tail that begins at the second range; the unused
    total is the unused bytes of the first range plus the unused total of
    that tail. *)
Theorem disjoint_case_adds_gap_as_used
  (firstRange secondRange : Range) (more : list Range) :
  startOffset secondRange >= endOffset firstRange ->
  exists tail,
    findUsedAndUnused (secondRange :: more) = Normal tail /\
    findUsedAndUnused (firstRange :: secondRange :: more)
    = Normal
        {| used :=
             used firstRange
             + (startOffset secondRange - endOffset firstRange)
             + used tail;
           unused := unused firstRange + unused tail |}.
Proof.
  intros H. destruct (findUsedAndUnused_returns (secondRange :: more))
    as [tail Htail].
  exists tail. split; [assumption|].
  rewrite findUsedAndUnused_disjoint, Htail by lia.
  cbn [bind]. unfold _add. cbn [used unused]. do 2 f_equal. lia.
Qed.

Lemma disjoint_case_adds_gap_as_used_witness :
  findUsedAndUnused [mkRange false 120 150]
  = Normal {| used := 0; unused := 30 |} /\
  findUsedAndUnused [mkRange true 0 100; mkRange false 120 150]
  = Normal {| used := 100 + (120 - 100) + 0; unused := 0 + 30 |}.
Proof.
  destruct (disjoint_case_adds_gap_as_used
              (mkRange true 0 100) (mkRange false 120 150) [])
    as (tail & Htail & Hall); [cbn; lia|].
  rewrite findUsedAndUnused_equation_2 in Htail.
  inversion Htail; subst tail. split; [|exact Hall].
  now rewrite findUsedAndUnused_equation_2.
Defined.

(** ** The nested case under an unused parent *)

Lemma dropWhile_sorted_filter (e : Z) (l : list Range) :
  sortedByStart l ->
  dropWhile (fun r : Range => startOffset r <? e) l
  = filter (fun r : Range => e <=? startOffset r) l.
Proof.
  induction 1 as [|x tl Hx Htl IH]; cbn; [reflexivity|].
  destruct (Z.ltb_spec (startOffset x) e) as [Hlt | Hge].
  - destruct (Z.leb_spec e (startOffset x)); [lia | exact IH].
  - destruct (Z.leb_spec e (startOffset x)); [|lia].
    f_equal. symmetry. apply forallb_filter_id. apply forallb_forall.
    intros y Hy. rewrite Forall_forall in Hx. specialize (Hx y Hy).
    unfold byStart in Hx. apply Z.leb_le. lia.
Qed.

(** C3.  When the first range is not used and the second range starts inside
    it, the used total is the used total of the decomposition of the ranges
    that start at or after the end of the first, and the unused total is the
    span of the first range plus the unused total of that decomposition; the
    ranges nested in the first add nothing. *)
Theorem unused_parent_discards_children
  (firstRange secondRange : Range) (more : list Range) :
  sortedByStart (firstRange :: secondRange :: more) ->
  derived firstRange ->
  isUsed firstRange = false ->
  startOffset secondRange < endOffset firstRange ->
  let restOfRanges :=
    filter (fun r : Range => endOffset firstRange <=? startOffset r)
      (secondRange :: more) in
  exists rest,
    findUsedAndUnused restOfRanges = Normal rest /\
    findUsedAndUnused (firstRange :: secondRange :: more)
    = Normal
        {| used := 0 + used rest;
           unused :=
             (endOffset firstRange - startOffset firstRange) + unused rest |}.
Proof.
  intros Hs (Hspan & Hused & Hunused) Hu Hnest restOfRanges.
  assert (Hrest : restOfRanges = dropWhile (startsInside firstRange) more).
  { unfold restOfRanges. inversion Hs as [|? ? _ Hs']; subst.
    rewrite <- dropWhile_sorted_filter by assumption.
    cbn. destruct (Z.ltb_spec (startOffset secondRange) (endOffset firstRange));
      [reflexivity | lia]. }
  destruct (findUsedAndUnused_returns restOfRanges) as [rest Hr].
  exists rest. split; [assumption|].
  rewrite findUsedAndUnused_nested_unused by assumption.
  rewrite <- Hrest, Hr. cbn [bind]. unfold _add.
  rewrite Hused, Hunused, Hu, Hspan. reflexivity.
Qed.

Lemma unused_parent_discards_children_witness :
  findUsedAndUnused
    (filter (fun r : Range => 100 <=? startOffset r)
       [mkRange true 10 50; mkRange false 100 120; mkRange true 120 125])
  = Normal {| used := 5; unused := 20 |} /\
  findUsedAndUnused
    [mkRange false 0 100; mkRange true 10 50; mkRange false 100 120;
     mkRange true 120 125]
  = Normal {| used := 0 + 5; unused := (100 - 0) + 20 |}.
Proof.
  destruct (unused_parent_discards_children
              (mkRange false 0 100) (mkRange true 10 50)
              [mkRange false 100 120; mkRange true 120 125])
    as (rest & Hrest & Hall).
  - each_pair; unfold byStart; cbn; lia.
  - repeat split.
  - reflexivity.
  - cbn. lia.
  - assert (Hv : findUsedAndUnused
                   (filter (fun r : Range => 100 <=? startOffset r)
                      [mkRange true 10 50; mkRange false 100 120;
                       mkRange true 120 125])
                 = Normal {| used := 5; unused := 20 |})
      by (vm_compute; reflexivity).
    split; [exact Hv|].
    cbv zeta in Hrest. change (endOffset (mkRange false 0 100)) with 100 in Hrest.
    rewrite Hv in Hrest. inversion Hrest; subst rest. exact Hall.
Defined.

(** ** The start of the rest in the nested case *)

(** C10.  In the nested case under a used parent, on ranges with
    [endOffset > startOffset >= 0] sorted by start offset, when
    [restOfRanges] is not empty [nextStart] is the start offset of its first
    element: that offset is at least the end of the first range, so it is
    not 0 and the fallback to [firstRange.endOffset] is not taken. *)
Theorem nextStart_is_start_of_rest
  (firstRange secondRange : Range) (more : list Range)
  (r : Range) (others : list Range) :
  let ranges := firstRange :: secondRange :: more in
  Forall (fun x : Range => wellFormed x) ranges ->
  sortedByStart ranges ->
  isUsed firstRange = true ->
  startOffset secondRange < endOffset firstRange ->
  sliceFrom (advanceEndIndex firstRange (sliceFrom 1 ranges) 1) ranges
  = r :: others ->
  nextStartOf firstRange (r :: others) = startOffset r.
Proof.
  intros ranges Hwf _ _ Hnest Hrest. unfold ranges in *.
  rewrite restOfRanges_eq in Hrest
    by (unfold startsInside; now apply Z.ltb_lt).
  assert (Hr : startsInside firstRange r = false).
  { clear - Hrest. induction more as [|x tl IH]; cbn in Hrest; [discriminate|].
    destruct (startsInside firstRange x) eqn:Hx; [now apply IH|].
    now inversion Hrest; subst. }
  unfold startsInside in Hr. apply Z.ltb_ge in Hr.
  inversion Hwf as [|? ? [H0 Hlt] _]; subst.
  unfold nextStartOf. destruct (Z.eqb_spec (startOffset r) 0); [lia|].
  reflexivity.
Qed.

Lemma nextStart_is_start_of_rest_witness :
  nextStartOf (mkRange true 0 100)
    [mkRange true 100 130] = 100.
Proof.
  apply (nextStart_is_start_of_rest
           (mkRange true 0 100) (mkRange false 20 30) [mkRange true 100 130]
           (mkRange true 100 130) []).
  - repeat constructor; cbn; lia.
  - repeat constructor; unfold byStart; cbn; lia.
  - reflexivity.
  - cbn. lia.
  - reflexivity.
Defined.

(** ** Sequences that nest properly *)

Lemma ForallOrdPairs_app_inv {A : Type} (R : A -> A -> Prop) (l1 l2 : list A) :
  ForallOrdPairs R (l1 ++ l2) ->
  ForallOrdPairs R l1 /\ ForallOrdPairs R l2.
Proof.
  induction l1 as [|x tl IH]; cbn; intros H.
  - split; [constructor | assumption].
  - inversion H as [|? ? Hx Htl]; subst.
    destruct (IH Htl) as [H1 H2]. split; [|assumption].
    constructor; [|assumption].
    apply Forall_app in Hx. tauto.
Qed.

Lemma takeWhile_Forall {A : Type} (p : A -> bool) (l : list A) :
  Forall (fun x => p x = true) (takeWhile p l).
Proof.
  induction l as [|x tl IH]; cbn; [constructor|].
  destruct (p x) eqn:Hx; constructor; assumption.
Qed.

Lemma dropWhile_head {A : Type} (p : A -> bool) (l : list A) (x : A)
  (tl : list A) :
  dropWhile p l = x :: tl -> p x = false.
Proof.
  induction l as [|y ys IH]; cbn; [discriminate|].
  destruct (p y) eqn:Hy; [assumption|].
  intros H. now inversion H; subst.
Qed.

Lemma maxEnd_cons (r x : Range) (l : list Range) :
  maxEnd r (x :: l) = Z.max (endOffset r) (maxEnd x l).
Proof.
  unfold maxEnd. cbn [fold_left].
  generalize (endOffset r) (endOffset x). induction l as [|y ys IH];
    intros e1 e2; cbn [fold_left]; [reflexivity|].
  rewrite !IH. lia.
Qed.

Lemma maxEnd_ge (r : Range) (l : list Range) : endOffset r <= maxEnd r l.
Proof.
  destruct l as [|x l]; [unfold maxEnd; cbn; lia|].
  rewrite maxEnd_cons. lia.
Qed.

Lemma maxEnd_app (r x : Range) (l1 l2 : list Range) :
  maxEnd r (l1 ++ x :: l2) = Z.max (maxEnd r l1) (maxEnd x l2).
Proof.
  revert r. induction l1 as [|y ys IH]; intros r; cbn [app].
  - rewrite maxEnd_cons. unfold maxEnd at 2. cbn. reflexivity.
  - rewrite !maxEnd_cons, IH. lia.
Qed.

Lemma maxEnd_bounded (e : Z) (r : Range) (l : list Range) :
  endOffset r <= e ->
  Forall (fun x : Range => endOffset x <= e) l ->
  maxEnd r l <= e.
Proof.
  intros Hr Hl. revert r Hr. induction Hl as [|x xs Hx _ IH]; intros r Hr.
  - unfold maxEnd. cbn. exact Hr.
  - rewrite maxEnd_cons. specialize (IH x Hx). lia.
Qed.

Lemma endOffset_laterEnd (max next : Range) :
  endOffset (laterEnd max next) = Z.max (endOffset max) (endOffset next).
Proof.
  unfold laterEnd. rewrite Z.geb_leb.
  destruct (Z.leb_spec (endOffset next) (endOffset max)); lia.
Qed.

(** [latestEnd], the end of the range that the reduction picks, is the
    greatest end offset of [spanningRanges]. *)
Lemma latestEnd_maxEnd (b : Range) (l : list Range) :
  endOffset (fold_left laterEnd l b) = maxEnd b l.
Proof.
  revert b. induction l as [|x xs IH]; intros b; cbn [fold_left].
  - reflexivity.
  - rewrite IH, maxEnd_cons.
    destruct xs as [|y ys].
    + unfold maxEnd. cbn. rewrite endOffset_laterEnd. lia.
    + rewrite !maxEnd_cons, endOffset_laterEnd. lia.
Qed.

Lemma fits_of_sorted_laminar (a b : CoverageRange) :
  wellFormed a -> wellFormed b -> precedes a b -> laminar a b -> fits a b.
Proof. unfold wellFormed, precedes, laminar, fits. lia. Qed.

Lemma ForallOrdPairs_fits (l : list Range) :
  Forall (fun x : Range => wellFormed x) l ->
  sortedRanges l -> properlyNested l ->
  ForallOrdPairs (fun a b : Range => fits a b) l.
Proof.
  unfold sortedRanges, properlyNested.
  induction l as [|a tl IH]; intros Hwf Hs Hn; [constructor|].
  inversion Hwf as [|? ? Hwa Hwtl]; subst.
  inversion Hs as [|? ? Hsa Hstl]; subst.
  inversion Hn as [|? ? Hna Hntl]; subst.
  constructor; [|now apply IH].
  rewrite Forall_forall in *. intros x Hx.
  apply fits_of_sorted_laminar; auto.
Qed.

Lemma used_unused_of_derived (r : Range) :
  wellFormed r -> derived r ->
  0 <= used r /\ 0 <= unused r /\
  used r + unused r = endOffset r - startOffset r.
Proof.
  intros [H0 Hlt] (Hspan & Hused & Hunused).
  rewrite Hused, Hunused, Hspan. destruct (isUsed r); lia.
Qed.

(** On well-formed ranges that nest properly both totals are
    non-negative. *)
Lemma decomposition_of_nested (l : list Range) :
  Forall (fun x : Range => wellFormed x) l ->
  Forall derived l ->
  ForallOrdPairs (fun a b : Range => fits a b) l ->
  exists v,
    findUsedAndUnused l = Normal v /\ 0 <= used v /\ 0 <= unused v.
Proof.
  remember (List.length l) as n eqn:Hn. revert l Hn.
  induction n as [n IH] using lt_wf_ind. intros l Hn Hwf Hder Hfit.
  subst n. destruct l as [|a [|b m]].
  - exists {| used := 0; unused := 0 |}.
    rewrite findUsedAndUnused_equation_1. cbn. repeat split; lia.
  - exists (totals a). rewrite findUsedAndUnused_equation_2.
    inversion Hwf; inversion Hder; subst.
    destruct (used_unused_of_derived a) as (? & ? & ?);
      [assumption | assumption |].
    repeat split; lia.
  - inversion Hwf as [|? ? Hwa Hwtl]; subst.
    inversion Hder as [|? ? Hda Hdtl]; subst.
    inversion Hfit as [|? ? Hfa Hftl]; subst.
    destruct (used_unused_of_derived a Hwa Hda) as (Hua & Hna & Hsa).
    assert (Hab : fits a b) by (inversion Hfa; assumption).
    destruct (Z.le_gt_cases (endOffset a) (startOffset b)) as [Hdis | Hnest].
    + destruct (IH (List.length (b :: m)) ltac:(cbn; lia) (b :: m) eq_refl
                  Hwtl Hdtl Hftl) as (t & Ht & Htu & Htn).
      rewrite findUsedAndUnused_disjoint, Ht by assumption.
      eexists. split; [reflexivity|]. cbn [bind _add used unused].
      split; lia.
    + pose proof (takeWhile_dropWhile (startsInside a) m) as Hm.
      pose proof (length_takeWhile_le (startsInside a) m) as Hlt.
      pose proof (length_dropWhile_le (startsInside a) m) as Hld.
      pose proof (takeWhile_Forall (startsInside a) m) as Hin.
      set (sp := takeWhile (startsInside a) m) in *.
      set (rs := dropWhile (startsInside a) m) in *.
      assert (Hbm : b :: m = (b :: sp) ++ rs) by (cbn; now rewrite Hm).
      rewrite Hbm in Hwtl, Hdtl, Hftl.
      apply Forall_app in Hwtl. destruct Hwtl as [Hwsp Hwrs].
      apply Forall_app in Hdtl. destruct Hdtl as [Hdsp Hdrs].
      apply ForallOrdPairs_app_inv in Hftl. destruct Hftl as [Hfsp Hfrs].
      assert (Hends : Forall (fun x : Range => endOffset x <= endOffset a) sp).
      { rewrite Forall_forall in *. intros x Hx.
        assert (Hxm : In x (b :: m))
          by (right; rewrite <- Hm; apply in_or_app; now left).
        specialize (Hin x Hx). specialize (Hfa x Hxm).
        unfold startsInside in Hin. apply Z.ltb_lt in Hin.
        unfold fits in Hfa. lia. }
      assert (HL : maxEnd b sp <= endOffset a).
      { apply maxEnd_bounded; [|assumption]. unfold fits in Hab. lia. }
      destruct (IH (List.length (b :: sp)) ltac:(cbn; lia) (b :: sp) eq_refl
                  Hwsp Hdsp Hfsp) as (vi & Hi & Hiu & Hin').
      destruct (IH (List.length rs) ltac:(cbn [List.length]; lia) rs eq_refl
                  Hwrs Hdrs Hfrs) as (vr & Hr & Hru & Hrn).
      assert (Hnext : endOffset a <= nextStartOf a rs).
      { destruct rs as [|x rs'] eqn:Ers; cbn [nextStartOf]; [lia|].
        pose proof (dropWhile_head _ _ _ _ Ers) as Hx.
        unfold startsInside in Hx. apply Z.ltb_ge in Hx.
        destruct (Z.eqb_spec (startOffset x) 0); lia. }
      destruct (isUsed a) eqn:Hu.
      * rewrite findUsedAndUnused_nested_used by assumption.
        cbv zeta. fold sp rs. rewrite Hi, Hr, latestEnd_maxEnd.
        eexists. split; [reflexivity|]. cbn [bind _add used unused].
        unfold fits in Hab. split; lia.
      * rewrite findUsedAndUnused_nested_unused by assumption.
        fold rs. rewrite Hr.
        eexists. split; [reflexivity|]. cbn [bind _add used unused].
        split; lia.
Qed.

(** ** Covered bytes and gaps *)

Lemma filter_partition_length {A : Type} (p : A -> bool) (l : list A) :
  (List.length (filter p l)
   + List.length (filter (fun x => negb (p x)) l))%nat
  = List.length l.
Proof.
  induction l as [|x tl IH]; cbn; [reflexivity|].
  destruct (p x); cbn; lia.
Qed.

Lemma length_offsets (lo hi : Z) :
  lo <= hi -> Z.of_nat (List.length (offsets lo hi)) = hi - lo.
Proof.
  intros H. unfold offsets. rewrite length_map, length_seq. lia.
Qed.

(** Every byte between the first start and the last end is either covered
    by a top-level span or lies in a gap. *)
Lemma covered_plus_gaps (l : list Range) :
  Forall (fun x : Range => wellFormed x) l ->
  totalSpanCovered l + gapBytes l = hull l.
Proof.
  intros Hwf. unfold totalSpanCovered, gapBytes.
  rewrite <- Nat2Z.inj_add, filter_partition_length.
  destruct l as [|r tl]; [reflexivity|].
  cbn [extent hull]. apply length_offsets.
  inversion Hwf as [|? ? [? ?] _]; subst.
  pose proof (maxEnd_ge r tl). lia.
Qed.

(** ** used + unused *)

Lemma hull_of_parent (a b : Range) (m : list Range) :
  wellFormed a ->
  Forall (fun x : Range => wellFormed x) (dropWhile (startsInside a) m) ->
  maxEnd b (takeWhile (startsInside a) m)
  <= boundAfter a (dropWhile (startsInside a) m) ->
  hull (a :: b :: m)
  = boundAfter a (dropWhile (startsInside a) m) - startOffset a /\
  match dropWhile (startsInside a) m with
  | [] => True
  | x :: rs =>
      endOffset a <= startOffset x /\ startOffset x < maxEnd x rs /\
      0 < startOffset x
  end.
Proof.
  intros [Ha0 Halt] Hwrs HL.
  unfold hull. rewrite maxEnd_cons.
  rewrite <- (takeWhile_dropWhile (startsInside a) m) at 1.
  destruct (dropWhile (startsInside a) m) as [|x rs] eqn:Ers;
    cbn [boundAfter] in *.
  - rewrite app_nil_r. split; [lia | exact I].
  - rewrite maxEnd_app.
    pose proof (dropWhile_head _ _ _ _ Ers) as Hx.
    unfold startsInside in Hx. apply Z.ltb_ge in Hx.
    pose proof (maxEnd_ge x rs).
    assert (wellFormed x) as [? ?] by (inversion Hwrs; assumption).
    split; lia.
Qed.

Lemma nextStartOf_rest (a : Range) (rs : list Range) :
  match rs with
  | [] => True
  | x :: _ => 0 < startOffset x
  end ->
  nextStartOf a rs
  = match rs with
    | [] => endOffset a
    | x :: _ => startOffset x
    end.
Proof.
  destruct rs as [|x rs]; cbn [nextStartOf]; [reflexivity|].
  intros Hx. destruct (Z.eqb_spec (startOffset x) 0); [lia | reflexivity].
Qed.

(** Where no byte is lost, the totals add up to the distance from the first
    start to the last end. *)
Lemma total_without_loss (l : list Range) :
  noLostBytes l ->
  Forall (fun x : Range => wellFormed x) l ->
  Forall derived l ->
  exists v,
    findUsedAndUnused l = Normal v /\ used v + unused v = hull l.
Proof.
  induction 1 as [| r | a b m Hdis _ IH
                 | a b m Hnest Hu _ IHsp _ IHrs HL
                 | a b m Hnest Hu _ IHrs HL Hnext];
    intros Hwf Hder.
  - exists {| used := 0; unused := 0 |}.
    rewrite findUsedAndUnused_equation_1. split; reflexivity.
  - exists (totals r). rewrite findUsedAndUnused_equation_2.
    inversion Hwf; inversion Hder; subst.
    destruct (used_unused_of_derived r) as (_ & _ & Hsum);
      [assumption | assumption |].
    split; [reflexivity|]. unfold hull, maxEnd. cbn. exact Hsum.
  - inversion Hwf as [|? ? Hwa Hwtl]; subst.
    inversion Hder as [|? ? Hda Hdtl]; subst.
    destruct (used_unused_of_derived a Hwa Hda) as (_ & _ & Hsa).
    assert (Hwb : wellFormed b) by (inversion Hwtl; assumption).
    destruct (IH Hwtl Hdtl) as (t & Ht & Hts).
    rewrite findUsedAndUnused_disjoint, Ht by assumption.
    eexists. split; [reflexivity|]. cbn [bind _add used unused].
    unfold hull in *. rewrite maxEnd_cons.
    pose proof (maxEnd_ge b m). destruct Hwb. lia.
  - inversion Hwf as [|? ? Hwa Hwtl]; subst.
    inversion Hder as [|? ? Hda Hdtl]; subst.
    pose proof (takeWhile_dropWhile (startsInside a) m) as Hm.
    assert (Hbm : b :: m
                  = (b :: takeWhile (startsInside a) m)
                    ++ dropWhile (startsInside a) m)
      by (cbn; now rewrite Hm).
    rewrite Hbm in Hwtl, Hdtl.
    apply Forall_app in Hwtl. destruct Hwtl as [Hwsp Hwrs].
    apply Forall_app in Hdtl. destruct Hdtl as [Hdsp Hdrs].
    destruct (IHsp Hwsp Hdsp) as (vi & Hi & His).
    destruct (IHrs Hwrs Hdrs) as (vr & Hr & Hrs).
    destruct (hull_of_parent a b m Hwa Hwrs HL) as [Hhull Hrest].
    rewrite findUsedAndUnused_nested_used by assumption.
    cbv zeta. rewrite Hi, Hr, latestEnd_maxEnd.
    eexists. split; [reflexivity|]. cbn [bind _add used unused].
    rewrite Hhull, nextStartOf_rest
      by (destruct (dropWhile (startsInside a) m); [exact I | tauto]).
    unfold hull in His, Hrs.
    destruct (dropWhile (startsInside a) m) as [|x rs];
      cbn [boundAfter] in *; lia.
  - inversion Hwf as [|? ? Hwa Hwtl]; subst.
    inversion Hder as [|? ? Hda Hdtl]; subst.
    destruct (used_unused_of_derived a Hwa Hda) as (_ & _ & Hsa).
    pose proof (takeWhile_dropWhile (startsInside a) m) as Hm.
    assert (Hbm : b :: m
                  = (b :: takeWhile (startsInside a) m)
                    ++ dropWhile (startsInside a) m)
      by (cbn; now rewrite Hm).
    rewrite Hbm in Hwtl, Hdtl.
    apply Forall_app in Hwtl. destruct Hwtl as [_ Hwrs].
    apply Forall_app in Hdtl. destruct Hdtl as [_ Hdrs].
    destruct (IHrs Hwrs Hdrs) as (vr & Hr & Hrs).
    destruct (hull_of_parent a b m Hwa Hwrs HL) as [Hhull _].
    rewrite findUsedAndUnused_nested_unused by assumption.
    rewrite Hr. eexists. split; [reflexivity|].
    cbn [bind _add used unused]. rewrite Hhull.
    unfold hull in Hrs.
    destruct (dropWhile (startsInside a) m) as [|x rs];
      cbn [boundAfter startsAtEndOf] in *; lia.
Qed.

(** C1, as amended.  On ranges with [endOffset > startOffset >= 0] and the
    derived fields of [computeWaste], sorted by start ascending and end
    descending, where no byte is lost at any level of nesting (at every
    level that is visited, children end no later than what bounds them and
    an unused range with children is followed by nothing or by a range that
    starts where it ends), [used + unused] is the length of the union of the
    top-level spans plus the bytes of the gaps between them, which the
    disjoint case counts as used. *)
Theorem used_plus_unused_is_span_plus_gaps (l : list Range) :
  Forall (fun x : Range => wellFormed x) l ->
  Forall derived l ->
  sortedRanges l ->
  noLostBytes l ->
  exists v,
    findUsedAndUnused l = Normal v /\
    used v + unused v = totalSpanCovered l + gapBytes l.
Proof.
  intros Hwf Hder _ Hnl.
  destruct (total_without_loss l Hnl Hwf Hder) as (v & Hv & Hsum).
  exists v. split; [assumption|].
  now rewrite covered_plus_gaps by assumption.
Qed.

(** Builds [noLostBytes] for an explicit list, level by level. *)
Ltac no_lost_bytes :=
  repeat (cbn [takeWhile dropWhile];
          first
            [ apply NLB_empty
            | apply NLB_single
            | apply NLB_siblings; [cbn; lia |]
            | apply NLB_used_parent;
              [cbn; lia | reflexivity | | | cbn; lia]
            | apply NLB_unused_parent;
              [cbn; lia | reflexivity | | cbn; lia | cbn; lia] ]).

Lemma used_plus_unused_is_span_plus_gaps_witness :
  let l :=
    [mkRange true 0 100; mkRange false 10 50; mkRange true 20 30;
     mkRange false 50 60; mkRange true 52 55; mkRange true 100 120;
     mkRange true 125 140; mkRange false 130 150; mkRange true 160 170] in
  findUsedAndUnused l = Normal {| used := 100; unused := 70 |} /\
  totalSpanCovered l = 155 /\
  gapBytes l = 15 /\
  exists v,
    findUsedAndUnused l = Normal v /\
    used v + unused v = totalSpanCovered l + gapBytes l.
Proof.
  cbv zeta. split; [vm_compute; reflexivity|].
  split; [vm_compute; reflexivity|]. split; [vm_compute; reflexivity|].
  apply used_plus_unused_is_span_plus_gaps.
  - each_pair; unfold wellFormed; cbn; lia.
  - each_pair; repeat split.
  - each_pair; unfold precedes; cbn; lia.
  - no_lost_bytes.
Defined.


(** The two shapes that lose no byte although a gap follows an unused range
    with children, or a child ends after its parent: the gap lies inside a
    used parent, and the child is followed by a later range. *)
Example gap_inside_used_parent_loses_nothing :
  noLostBytes
    [mkRange true 0 100; mkRange false 10 50; mkRange true 20 30;
     mkRange true 100 120].
Proof. no_lost_bytes. Qed.

Example overhang_before_a_later_range_loses_nothing :
  noLostBytes [mkRange true 0 10; mkRange false 5 30; mkRange true 40 50].
Proof. no_lost_bytes. Qed.

(** C1 does not hold as stated: two disjoint used ranges [0, 10) and
    [20, 30) satisfy the precondition, the union of the top-level spans has
    length 20, and the decomposition returns 30 used bytes, the 10 bytes of
    the gap included. *)
Lemma used_plus_unused_is_not_span_covered :
  let l := [mkRange true 0 10; mkRange true 20 30] in
  Forall (fun x : Range => wellFormed x) l /\
  sortedRanges l /\
  findUsedAndUnused l = Normal {| used := 30; unused := 0 |} /\
  totalSpanCovered l = 20 /\
  30 + 0 <> totalSpanCovered l.
Proof.
  cbv zeta. split; [|split; [|split; [|split]]].
  - repeat constructor; cbn; lia.
  - each_pair; unfold precedes; cbn; lia.
  - vm_compute. reflexivity.
  - vm_compute. reflexivity.
  - vm_compute. discriminate.
Qed.

(** ** [computeWaste] and [audit_] return *)

Section AuditProperties.

Variable getDisplayName : string -> string.

Lemma flattened_eq (script : Script.t) :
  fold_left forEachFunction (Script.functions script) (0%nat, [])
  = (fst (fold_left forEachFunction (Script.functions script) (0%nat, [])),
     flattened script).
Proof. unfold flattened. now destruct (fold_left _ _ _). Qed.

(** What [computeWaste] returns, in terms of the decomposition of the
    flattened and sorted ranges. *)
Lemma computeWaste_eq (script : Script.t) (networkRecord : NetworkRecord.t) :
  exists v,
    findUsedAndUnused (sortedRangesOf script) = Normal v /\
    computeWaste getDisplayName script networkRecord
    = Normal
        {| WasteResult.url := getDisplayName (Script.url script);
           WasteResult.totalBytes := NetworkRecord.transferSize networkRecord;
           WasteResult.wastedBytes :=
             Math_round
               (mul (of_Z (NetworkRecord.transferSize networkRecord))
                  (wastedRatioOf v));
           WasteResult.wastedPercent := mul (of_Z 100) (wastedRatioOf v);
           WasteResult.numUnused :=
             fst (fold_left forEachFunction (Script.functions script)
                    (0%nat, [])) |}.
Proof.
  destruct (findUsedAndUnused_returns (sortedRangesOf script)) as [v Hv].
  exists v. split; [assumption|].
  unfold computeWaste. rewrite flattened_eq.
  unfold sortedRangesOf in Hv. rewrite Hv. reflexivity.
Qed.

(** C9, as amended.  [computeWaste] does not validate the ranges and has no
    error for them: for every script and network record, ranges with
    [endOffset < startOffset] or overlapping ranges included, the result is
    the one computed from the decomposition of the flattened and sorted
    ranges as they are; and for a script of a single executed range the used
    total of that decomposition is [endOffset - startOffset], a negative byte
    count when the range ends before it starts. *)
Theorem computeWaste_does_not_validate (script : Script.t)
  (networkRecord : NetworkRecord.t) :
  (exists v,
     findUsedAndUnused (sortedRangesOf script) = Normal v /\
     computeWaste getDisplayName script networkRecord
     = Normal
         {| WasteResult.url := getDisplayName (Script.url script);
            WasteResult.totalBytes :=
              NetworkRecord.transferSize networkRecord;
            WasteResult.wastedBytes :=
              Math_round
                (mul (of_Z (NetworkRecord.transferSize networkRecord))
                   (or (div (of_Z (unused v)) (of_Z (unused v + used v)))
                      zero));
            WasteResult.wastedPercent :=
              mul (of_Z 100)
                (or (div (of_Z (unused v)) (of_Z (unused v + used v))) zero);
            WasteResult.numUnused :=
              fst (fold_left forEachFunction (Script.functions script)
                     (0%nat, [])) |}) /\
  (forall r,
     Script.functions script = [{| ranges := [r] |}] ->
     0 < count r ->
     findUsedAndUnused (sortedRangesOf script)
     = Normal {| used := endOffset r - startOffset r; unused := 0 |}).
Proof.
  split.
  - destruct (computeWaste_eq script networkRecord) as (v & Hv & H).
    exists v. split; [exact Hv | exact H].
  - intros r Hr Hc. unfold sortedRangesOf, flattened. rewrite Hr. cbn.
    rewrite findUsedAndUnused_equation_2. cbn.
    destruct (Z.ltb_spec 0 (count r)); [reflexivity | lia].
Qed.

Lemma consolidate_returns (networkRecords : list NetworkRecord.t)
  (m : Map WasteResult.t) (script : Script.t) :
  exists m', consolidate getDisplayName networkRecords m script = Normal m'.
Proof.
  unfold consolidate. destruct (find _ networkRecords) as [record|].
  - destruct (computeWaste_eq script record) as (v & _ & Hr).
    rewrite Hr. cbn [bind].
    match goal with |- context [Map_get m (WasteResult.url ?r)] =>
      set (result := r) end.
    destruct (Map_get m (WasteResult.url result)) as [existing|].
    + destruct (gt _ _); eexists; reflexivity.
    + eexists; reflexivity.
  - eexists; reflexivity.
Qed.

Lemma reduceScripts_returns (networkRecords : list NetworkRecord.t)
  (scripts : list Script.t) (m : Map WasteResult.t) :
  exists m', reduceScripts getDisplayName networkRecords scripts m = Normal m'.
Proof.
  revert m. induction scripts as [|script tl IH]; intros m; cbn.
  - eexists; reflexivity.
  - destruct (consolidate_returns networkRecords m script) as [m1 H1].
    rewrite H1. cbn [bind]. apply IH.
Qed.

End AuditProperties.

(** ** The examples of the unit tests for [computeWaste] and [audit_] *)

Example computeWaste_wastedPercent :
  exists result,
    computeWaste wholeUrl scriptUsage
      {| NetworkRecord.url := ""; NetworkRecord.transferSize := 0 |}
    = Normal result /\
    WasteResult.wastedPercent result = of_Z 65.
Proof. eexists. split; vm_compute; reflexivity. Qed.

Example computeWaste_wastedBytes :
  exists result,
    computeWaste wholeUrl scriptUsage
      {| NetworkRecord.url := ""; NetworkRecord.transferSize := 1000 |}
    = Normal result /\
    WasteResult.wastedBytes result = of_Z 650 /\
    WasteResult.numUnused result = 5%nat /\
    WasteResult.totalBytes result = 1000.
Proof. eexists. repeat split; vm_compute; reflexivity. Qed.

Example audit_consolidates_duplicates :
  exists item,
    option_map results
      (match
         audit_ wholeUrl
           {| JsUsage := [scriptA; scriptADuplicate; scriptB; scriptBDuplicate] |}
           [recordA; recordB]
       with
       | Normal out => Some out
       | Throw _ => None
       end)
    = Some [item] /\
    WasteResult.wastedPercent item = of_Z 50.
Proof. eexists. split; vm_compute; reflexivity. Qed.

(** ** Inputs on which the claims of the specification fail *)


(** C6 does not hold as stated.  Three functions of one range each, [0, 10)
    executed, [5, 15) not executed and [6, 25) executed: the totals are
    [used = -10] and [unused = 10], so [used + unused] is 0, the ratio is
    [10 / 0], which is [Infinity] and truthy, and neither [wastedPercent] nor
    [wastedBytes] is 0. *)
Lemma zero_total_with_infinite_ratio :
  let script :=
    generateScript "overhang.js" [(0, 10, true); (5, 15, false); (6, 25, true)]
  in
  let networkRecord := generateRecord "overhang.js" 1000 in
  exists v result,
    findUsedAndUnused (sortedRangesOf script) = Normal v /\
    used v + unused v = 0 /\
    computeWaste wholeUrl script networkRecord = Normal result /\
    WasteResult.wastedPercent result = S754_infinity false /\
    WasteResult.wastedBytes result = S754_infinity false /\
    WasteResult.wastedPercent result <> of_Z 0 /\
    WasteResult.wastedBytes result <> of_Z 0.
Proof.
  cbv zeta. exists {| used := -10; unused := 10 |}. eexists.
  split; [vm_compute; reflexivity|]. split; [reflexivity|].
  split; [vm_compute; reflexivity|].
  repeat split; try (vm_compute; reflexivity); vm_compute; discriminate.
Qed.

(** C9 does not hold as stated.  A range with [endOffset < startOffset] and
    a function with two overlapping ranges are both accepted: [computeWaste]
    returns a result and raises nothing, and the decomposition of the first
    holds a negative byte count. *)
Lemma malformed_ranges_are_not_rejected :
  let reversed := generateScript "reversed.js" [(20, 10, true)] in
  let overlapping :=
    {| Script.url := "https://google.com/overlapping.js";
       Script.functions :=
         [{| ranges :=
               [{| startOffset := 0; endOffset := 10; count := 1 |};
                {| startOffset := 5; endOffset := 30; count := 0 |}] |}] |} in
  let networkRecord := generateRecord "reversed.js" 1000 in
  findUsedAndUnused (sortedRangesOf reversed)
  = Normal {| used := -10; unused := 0 |} /\
  (exists result,
     computeWaste wholeUrl reversed networkRecord = Normal result) /\
  findUsedAndUnused (sortedRangesOf overlapping)
  = Normal {| used := -15; unused := 25 |} /\
  (exists result,
     computeWaste wholeUrl overlapping networkRecord = Normal result).
Proof.
  cbv zeta. repeat split; try (vm_compute; reflexivity);
    eexists; vm_compute; reflexivity.
Qed.

Lemma computeWaste_does_not_validate_witness :
  let reversed := generateScript "reversed.js" [(20, 10, true)] in
  let networkRecord := generateRecord "reversed.js" 1000 in
  findUsedAndUnused (sortedRangesOf reversed)
  = Normal {| used := 10 - 20; unused := 0 |} /\
  exists result,
    computeWaste wholeUrl reversed networkRecord = Normal result /\
    WasteResult.wastedBytes result = zero /\
    WasteResult.wastedPercent result = zero.
Proof.
  cbv zeta.
  destruct (computeWaste_does_not_validate wholeUrl
              (generateScript "reversed.js" [(20, 10, true)])
              (generateRecord "reversed.js" 1000))
    as ((v & Hv & Hresult) & Hsingle).
  specialize (Hsingle {| startOffset := 20; endOffset := 10; count := 1 |}
                eq_refl eq_refl).
  split; [exact Hsingle|].
  rewrite Hsingle in Hv. inversion Hv; subst v.
  eexists. split; [exact Hresult|]. split; vm_compute; reflexivity.
Defined.

(** C7 does not hold as stated.  Two samples of one URL with 500 and 1000
    wasted bytes: the smaller one is kept by the deduplication, it is not
    above the threshold, and the output holds no result for that URL. *)
Lemma smallest_duplicate_can_be_filtered_out :
  let sample1 := generateScript "small.js" [(0, 100, true); (0, 50, false)] in
  let sample2 := generateScript "small.js" [(0, 100, false)] in
  let networkRecord := generateRecord "small.js" 1000 in
  (exists r1 r2,
     computeWaste wholeUrl sample1 networkRecord = Normal r1 /\
     computeWaste wholeUrl sample2 networkRecord = Normal r2 /\
     WasteResult.wastedBytes r1 = of_Z 500 /\
     WasteResult.wastedBytes r2 = of_Z 1000) /\
  exists out,
    audit_ wholeUrl {| JsUsage := [sample1; sample2] |} [networkRecord]
    = Normal out /\
    results out = [].
Proof.
  cbv zeta. split.
  - eexists. eexists. repeat split; vm_compute; reflexivity.
  - eexists. split; vm_compute; reflexivity.
Qed.

(** ** The order of Numbers *)

Ltac compare_cases :=
  repeat match goal with
  | H : context [Z.compare ?a ?b] |- _ =>
      destruct (Z.compare_spec a b); try subst
  | |- context [Z.compare ?a ?b] =>
      destruct (Z.compare_spec a b); try subst
  | H : context [Pos.compare_cont Eq ?a ?b] |- _ =>
      change (Pos.compare_cont Eq a b) with (Pos.compare a b) in *;
      destruct (Pos.compare_spec a b); try subst
  | |- context [Pos.compare_cont Eq ?a ?b] =>
      change (Pos.compare_cont Eq a b) with (Pos.compare a b) in *;
      destruct (Pos.compare_spec a b); try subst
  end.

Lemma gt_irrefl (x : number) : gt x x = false.
Proof.
  unfold gt, SFltb, SFcompare. destruct x as [s|s| |s m e]; try destruct s;
    try reflexivity; rewrite Z.compare_refl;
    change (Pos.compare_cont Eq m m) with (Pos.compare m m);
    rewrite Pos.compare_refl; reflexivity.
Qed.

Lemma gt_trans (x y z : number) :
  gt x y = true -> gt y z = true -> gt x z = true.
Proof.
  unfold gt, SFltb, SFcompare.
  destruct x as [sx|sx| |sx mx ex]; destruct y as [sy|sy| |sy my ey];
    destruct z as [sz|sz| |sz mz ez];
    try destruct sx; try destruct sy; try destruct sz;
    try discriminate; try reflexivity; intros Hxy Hyz;
    compare_cases; try discriminate; try reflexivity; try lia.
Qed.

(** A sample that is not smaller than the kept one is not smaller than the
    one that replaces it. *)
Lemma gt_replaced (existing result other : number) :
  gt existing result = true ->
  gt existing other = false ->
  gt result other = false.
Proof.
  intros H1 H2. destruct (gt result other) eqn:H3; [|reflexivity].
  rewrite (gt_trans _ _ _ H1 H3) in H2. discriminate.
Qed.

(** ** Maps *)

Lemma Map_get_In {V : Type} (m : Map V) (k : string) (v : V) :
  Map_get m k = Some v -> In (k, v) m.
Proof.
  induction m as [|[k' v'] tl IH]; cbn; [discriminate|].
  destruct (String.eqb_spec k' k) as [-> | Hne].
  - intros H. inversion H; subst. now left.
  - intros H. right. now apply IH.
Qed.

Lemma Map_get_None {V : Type} (m : Map V) (k : string) :
  Map_get m k = None <-> ~ In k (map fst m).
Proof.
  induction m as [|[k' v'] tl IH]; cbn; [tauto|].
  destruct (String.eqb_spec k' k) as [-> | Hne].
  - split; [discriminate | tauto].
  - rewrite IH. tauto.
Qed.

Lemma In_Map_get {V : Type} (m : Map V) (k : string) (v : V) :
  NoDup (map fst m) -> In (k, v) m -> Map_get m k = Some v.
Proof.
  induction m as [|[k' v'] tl IH]; cbn; [tauto|].
  intros Hnd [Heq | Hin]; inversion Hnd as [|? ? Hk' Htl]; subst.
  - inversion Heq; subst. now rewrite String.eqb_refl.
  - destruct (String.eqb_spec k' k) as [-> | Hne]; [|now apply IH].
    exfalso. apply Hk'. now apply (in_map fst) in Hin.
Qed.

Lemma Map_get_set_same {V : Type} (m : Map V) (k : string) (v : V) :
  Map_get (Map_set m k v) k = Some v.
Proof.
  induction m as [|[k' v'] tl IH]; cbn.
  - now rewrite String.eqb_refl.
  - destruct (String.eqb_spec k' k) as [-> | Hne]; cbn.
    + now rewrite String.eqb_refl.
    + destruct (String.eqb_spec k' k); [congruence | exact IH].
Qed.

Lemma Map_get_set_other {V : Type} (m : Map V) (k k' : string) (v : V) :
  k' <> k -> Map_get (Map_set m k v) k' = Map_get m k'.
Proof.
  intros Hne. induction m as [|[k0 v0] tl IH]; cbn.
  - destruct (String.eqb_spec k k'); [congruence | reflexivity].
  - destruct (String.eqb_spec k0 k) as [-> | Hne0]; cbn.
    + destruct (String.eqb_spec k k'); [congruence | reflexivity].
    + destruct (String.eqb_spec k0 k'); [reflexivity | exact IH].
Qed.

Lemma Map_set_keys {V : Type} (m : Map V) (k : string) (v : V) (k' : string) :
  In k' (map fst (Map_set m k v)) <-> k' = k \/ In k' (map fst m).
Proof.
  induction m as [|[k0 v0] tl IH]; cbn.
  - intuition congruence.
  - destruct (String.eqb_spec k0 k) as [-> | Hne0]; cbn.
    + intuition congruence.
    + rewrite IH. tauto.
Qed.

Lemma Map_set_NoDup {V : Type} (m : Map V) (k : string) (v : V) :
  NoDup (map fst m) -> NoDup (map fst (Map_set m k v)).
Proof.
  induction m as [|[k0 v0] tl IH]; cbn; intros Hnd.
  - repeat constructor. intros [].
  - inversion Hnd as [|? ? Hk0 Htl]; subst.
    destruct (String.eqb_spec k0 k) as [-> | Hne0]; cbn.
    + now constructor.
    + constructor; [|now apply IH].
      rewrite Map_set_keys. intros [-> | H]; [congruence | contradiction].
Qed.

Lemma Map_set_In {V : Type} (m : Map V) (k : string) (v : V)
  (k' : string) (v' : V) :
  In (k', v') (Map_set m k v) -> (k', v') = (k, v) \/ In (k', v') m.
Proof.
  induction m as [|[k0 v0] tl IH]; cbn.
  - intros [H | []]. left. now symmetry.
  - destruct (String.eqb_spec k0 k) as [-> | Hne0]; cbn.
    + intros [H | H]; [left; now symmetry | right; now right].
    + intros [H | H]; [right; now left|]. destruct (IH H); tauto.
Qed.

(** ** Deduplication by URL *)

Section Deduplication.

Variable getDisplayName : string -> string.
Variable networkRecords : list NetworkRecord.t.

Lemma consolidated_nil : consolidated getDisplayName networkRecords [] [].
Proof.
  split; [constructor|]. split.
  - intros k v [].
  - intros script result [].
Qed.

Lemma consolidate_step (processed : list Script.t) (m : Map WasteResult.t)
  (script : Script.t) :
  consolidated getDisplayName networkRecords processed m ->
  exists m',
    consolidate getDisplayName networkRecords m script = Normal m' /\
    consolidated getDisplayName networkRecords (processed ++ [script]) m'.
Proof.
  intros (Hnd & Hentries & Hsamples).
  assert (Hold : forall k v,
            In (k, v) m ->
            WasteResult.url v = k /\
            exists script0,
              In script0 (processed ++ [script]) /\
              sampleOf getDisplayName networkRecords script0 = Some v).
  { intros k v Hin. destruct (Hentries k v Hin) as (Hk & s0 & Hs0 & Hv).
    split; [assumption|]. exists s0. split; [|assumption].
    apply in_or_app. now left. }
  assert (Hsample : sampleOf getDisplayName networkRecords script
                    = match
                        find (fun record =>
                                String.eqb (NetworkRecord.url record)
                                  (Script.url script)) networkRecords
                      with
                      | None => None
                      | Some networkRecord =>
                          match
                            computeWaste getDisplayName script networkRecord
                          with
                          | Normal result => Some result
                          | Throw _ => None
                          end
                      end) by reflexivity.
  unfold consolidate.
  destruct (find _ networkRecords) as [record|].
  - destruct (computeWaste_eq getDisplayName script record) as (v & _ & Hr).
    rewrite Hr in *. cbn [bind].
    match goal with |- context [Map_get m (WasteResult.url ?r)] =>
      set (result := r) in * end.
    set (k := WasteResult.url result) in *.
    assert (Hnew : In script (processed ++ [script]))
      by (apply in_or_app; right; now left).
    destruct (Map_get m k) as [existing|] eqn:Hget.
    + destruct (gt (WasteResult.wastedBytes existing)
                  (WasteResult.wastedBytes result)) eqn:Hgt.
      * eexists. split; [reflexivity|].
        split; [now apply Map_set_NoDup|]. split.
        -- intros k' v' Hin. apply Map_set_In in Hin.
           destruct Hin as [Heq | Hin]; [|now apply Hold].
           inversion Heq; subst. split; [reflexivity|].
           exists script. split; assumption.
        -- intros s0 r0 Hs0 Hr0. apply in_app_or in Hs0.
           destruct Hs0 as [Hs0 | [<- | []]].
           ++ destruct (Hsamples s0 r0 Hs0 Hr0) as (kept & Hkept & Hle).
              destruct (string_dec (WasteResult.url r0) k) as [Heq | Hne].
              ** rewrite Heq in *. rewrite Map_get_set_same.
                 exists result. split; [reflexivity|].
                 rewrite Hget in Hkept. inversion Hkept; subst.
                 now apply gt_replaced with (1 := Hgt).
              ** rewrite Map_get_set_other by assumption. now exists kept.
           ++ rewrite Hsample in Hr0. inversion Hr0; subst.
              fold k. rewrite Map_get_set_same.
              exists result. split; [reflexivity | apply gt_irrefl].
      * eexists. split; [reflexivity|].
        split; [assumption|]. split; [assumption|].
        intros s0 r0 Hs0 Hr0. apply in_app_or in Hs0.
        destruct Hs0 as [Hs0 | [<- | []]]; [now apply (Hsamples s0)|].
        rewrite Hsample in Hr0. inversion Hr0; subst.
        fold k. exists existing. split; assumption.
    + eexists. split; [reflexivity|].
      split; [now apply Map_set_NoDup|]. split.
      * intros k' v' Hin. apply Map_set_In in Hin.
        destruct Hin as [Heq | Hin]; [|now apply Hold].
        inversion Heq; subst. split; [reflexivity|].
        exists script. split; assumption.
      * intros s0 r0 Hs0 Hr0. apply in_app_or in Hs0.
        destruct Hs0 as [Hs0 | [<- | []]].
        -- destruct (Hsamples s0 r0 Hs0 Hr0) as (kept & Hkept & Hle).
           destruct (string_dec (WasteResult.url r0) k) as [Heq | Hne].
           ++ rewrite Heq, Hget in Hkept. discriminate.
           ++ rewrite Map_get_set_other by assumption. now exists kept.
        -- rewrite Hsample in Hr0. inversion Hr0; subst.
           fold k. rewrite Map_get_set_same.
           exists result. split; [reflexivity | apply gt_irrefl].
  - eexists. split; [reflexivity|].
    split; [assumption|]. split; [assumption|].
    intros s0 r0 Hs0 Hr0. apply in_app_or in Hs0.
    destruct Hs0 as [Hs0 | [<- | []]]; [now apply (Hsamples s0)|].
    rewrite Hsample in Hr0. discriminate.
Qed.

Lemma reduceScripts_consolidated (scripts processed : list Script.t)
  (m : Map WasteResult.t) :
  consolidated getDisplayName networkRecords processed m ->
  exists m',
    reduceScripts getDisplayName networkRecords scripts m = Normal m' /\
    consolidated getDisplayName networkRecords (processed ++ scripts) m'.
Proof.
  revert processed m. induction scripts as [|script tl IH];
    intros processed m Hm; cbn [reduceScripts].
  - exists m. rewrite app_nil_r. split; [reflexivity | assumption].
  - destruct (consolidate_step processed m script Hm) as (m1 & H1 & Hm1).
    rewrite H1. cbn [bind].
    destruct (IH _ _ Hm1) as (m2 & H2 & Hm2).
    exists m2. split; [assumption|].
    now rewrite <- app_assoc in Hm2.
Qed.

Lemma reduceScripts_app (l1 l2 : list Script.t) (m : Map WasteResult.t) :
  reduceScripts getDisplayName networkRecords (l1 ++ l2) m
  = (m1 <- reduceScripts getDisplayName networkRecords l1 m ;;
     reduceScripts getDisplayName networkRecords l2 m1).
Proof.
  revert m. induction l1 as [|s tl IH]; intros m; cbn; [reflexivity|].
  destruct (consolidate _ _ m s); cbn; [apply IH | reflexivity].
Qed.

End Deduplication.

(** ** Filtering by the threshold *)

Section Threshold.

Variable getDisplayName : string -> string.

(** C8.  Every script of [JsUsage] that has a network record has a
    deduplicated result under its URL, and [audit_] returns a deduplicated
    result exactly when its [wastedBytes] is strictly greater than the
    threshold of 2048 bytes: a result whose [wastedBytes] equals the
    threshold is left out, and one with the threshold plus one is
    returned. *)
Theorem audit_keeps_results_above_threshold (artifacts : Artifacts)
  (networkRecords : list NetworkRecord.t) :
  exists resultsMap out,
    resultsMapOf getDisplayName artifacts networkRecords = Normal resultsMap /\
    audit_ getDisplayName artifacts networkRecords = Normal out /\
    (forall script result,
       In script (JsUsage artifacts) ->
       sampleOf getDisplayName networkRecords script = Some result ->
       exists kept,
         In kept (Map_values resultsMap) /\
         WasteResult.url kept = WasteResult.url result) /\
    forall item,
      In item (Map_values resultsMap) ->
      (In item (results out)
       <-> gt (WasteResult.wastedBytes item) (of_Z 2048) = true) /\
      (WasteResult.wastedBytes item = of_Z 2048 -> ~ In item (results out)) /\
      (WasteResult.wastedBytes item = of_Z (2048 + 1) ->
       In item (results out)).
Proof.
  destruct (reduceScripts_consolidated getDisplayName networkRecords
              (JsUsage artifacts) [] [] (consolidated_nil _ _))
    as (m & Hm & Hnd & Hentries & Hsamples).
  cbn [app] in Hentries, Hsamples.
  exists m. eexists. unfold audit_, resultsMapOf. rewrite Hm. cbn [bind].
  split; [reflexivity|]. split; [reflexivity|]. split.
  - intros script result Hin Hs.
    destruct (Hsamples script result Hin Hs) as (kept & Hget & _).
    exists kept. apply Map_get_In in Hget.
    split; [|now destruct (Hentries _ _ Hget)].
    unfold Map_values. apply in_map_iff. now exists (WasteResult.url result, kept).
  - intros item Hin. cbn [results]. rewrite !filter_In.
    unfold aboveThreshold, IGNORE_THRESHOLD_IN_BYTES.
    split; [tauto|]. split.
    + intros Heq [_ H]. rewrite Heq in H. vm_compute in H. discriminate.
    + intros Heq. split; [assumption|]. rewrite Heq. vm_compute. reflexivity.
Qed.

End Threshold.

Lemma audit_keeps_results_above_threshold_witness :
  let exact := generateScript "exact.js" [(0, 100, false)] in
  let above := generateScript "above.js" [(0, 100, false)] in
  let networkRecords :=
    [generateRecord "exact.js" 2048; generateRecord "above.js" 2049] in
  exists atThreshold overThreshold out,
    audit_ wholeUrl {| JsUsage := [exact; above] |} networkRecords
    = Normal out /\
    sampleOf wholeUrl networkRecords exact = Some atThreshold /\
    WasteResult.wastedBytes atThreshold = of_Z 2048 /\
    ~ In atThreshold (results out) /\
    sampleOf wholeUrl networkRecords above = Some overThreshold /\
    WasteResult.wastedBytes overThreshold = of_Z 2049 /\
    In overThreshold (results out).
Proof.
  cbv zeta.
  destruct (audit_keeps_results_above_threshold wholeUrl
              {| JsUsage :=
                   [generateScript "exact.js" [(0, 100, false)];
                    generateScript "above.js" [(0, 100, false)]] |}
              [generateRecord "exact.js" 2048; generateRecord "above.js" 2049])
    as (m & out & Hm & Hout & _ & Hitems).
  vm_compute in Hm. inversion Hm; subst m. clear Hm.
  eexists. eexists. exists out.
  split; [exact Hout|].
  split; [vm_compute; reflexivity|].
  split; [vm_compute; reflexivity|].
  split.
  { eapply Hitems; [left; reflexivity | vm_compute; reflexivity]. }
  split; [vm_compute; reflexivity|].
  split; [vm_compute; reflexivity|].
  eapply Hitems; [right; left; reflexivity | vm_compute; reflexivity].
Defined.


(** ** Further properties of the decomposition *)

Lemma fold_laterEnd_In (b : Range) (l : list Range) :
  In (fold_left laterEnd l b) (b :: l).
Proof.
  revert b. induction l as [|x xs IH]; intros b; cbn [fold_left].
  - now left.
  - assert (Hy : laterEnd b x = b \/ laterEnd b x = x)
      by (unfold laterEnd; destruct (endOffset b >=? endOffset x); auto).
    specialize (IH (laterEnd b x)).
    destruct Hy as [Hy | Hy]; rewrite Hy in *; destruct IH as [H | H].
    + left. exact H.
    + right. right. exact H.
    + right. left. exact H.
    + right. right. exact H.
Qed.

Lemma maxEnd_upper (r : Range) (l : list Range) :
  Forall (fun x : Range => endOffset x <= maxEnd r l) (r :: l).
Proof.
  revert r. induction l as [|x xs IH]; intros r.
  - constructor; [unfold maxEnd; cbn; lia | constructor].
  - rewrite maxEnd_cons. specialize (IH x).
    constructor; [lia|].
    eapply Forall_impl; [|exact IH]. cbn. intros; lia.
Qed.

(** In the nested case the reduction returns a range of [spanningRanges]
    whose end offset is the greatest of them, also when a child ends after
    the first range does. *)
Theorem latestEnd_is_greatest_end
  (firstRange secondRange : Range) (more : list Range) :
  startOffset secondRange < endOffset firstRange ->
  let ranges := firstRange :: secondRange :: more in
  let spanningRanges :=
    slice 1 (advanceEndIndex firstRange (sliceFrom 1 ranges) 1) ranges in
  exists latest,
    reduce laterEnd spanningRanges = Normal latest /\
    In latest spanningRanges /\
    Forall (fun r : Range => endOffset r <= endOffset latest) spanningRanges.
Proof.
  intros Hnest ranges spanningRanges. unfold spanningRanges, ranges.
  rewrite spanningRanges_eq by (unfold startsInside; now apply Z.ltb_lt).
  eexists. split; [reflexivity|]. split; [apply fold_laterEnd_In|].
  rewrite latestEnd_maxEnd. apply maxEnd_upper.
Qed.

Lemma latestEnd_is_greatest_end_witness :
  exists latest,
    reduce laterEnd
      (slice 1
         (advanceEndIndex (mkRange true 0 100)
            (sliceFrom 1
               [mkRange true 0 100; mkRange true 10 120; mkRange false 20 30;
                mkRange true 150 160]) 1)
         [mkRange true 0 100; mkRange true 10 120; mkRange false 20 30;
          mkRange true 150 160])
    = Normal latest /\
    In latest
      (slice 1
         (advanceEndIndex (mkRange true 0 100)
            (sliceFrom 1
               [mkRange true 0 100; mkRange true 10 120; mkRange false 20 30;
                mkRange true 150 160]) 1)
         [mkRange true 0 100; mkRange true 10 120; mkRange false 20 30;
          mkRange true 150 160]) /\
    Forall (fun r : Range => endOffset r <= endOffset latest)
      (slice 1
         (advanceEndIndex (mkRange true 0 100)
            (sliceFrom 1
               [mkRange true 0 100; mkRange true 10 120; mkRange false 20 30;
                mkRange true 150 160]) 1)
         [mkRange true 0 100; mkRange true 10 120; mkRange false 20 30;
          mkRange true 150 160]).
Proof.
  apply (latestEnd_is_greatest_end (mkRange true 0 100) (mkRange true 10 120)
           [mkRange false 20 30; mkRange true 150 160]).
  cbn. lia.
Defined.

Lemma sumUnused_app (l1 l2 : list Range) :
  sumUnused (l1 ++ l2) = sumUnused l1 + sumUnused l2.
Proof.
  induction l1 as [|r tl IH]; cbn; [reflexivity|].
  unfold sumUnused in *. cbn. rewrite IH. lia.
Qed.

Lemma sumUnused_nonneg (l : list Range) :
  Forall (fun r : Range => 0 <= unused r) l -> 0 <= sumUnused l.
Proof.
  induction 1 as [|r tl Hr _ IH]; unfold sumUnused in *; cbn; lia.
Qed.

Lemma unused_bounded (l : list Range) :
  Forall (fun r : Range => 0 <= unused r) l ->
  exists v,
    findUsedAndUnused l = Normal v /\ 0 <= unused v <= sumUnused l.
Proof.
  remember (List.length l) as n eqn:Hn. revert l Hn.
  induction n as [n IH] using lt_wf_ind. intros l Hn Hl. subst n.
  destruct l as [|a [|b m]].
  - eexists. rewrite findUsedAndUnused_equation_1. split; [reflexivity|].
    cbn. lia.
  - eexists. rewrite findUsedAndUnused_equation_2. split; [reflexivity|].
    inversion Hl; subst. unfold sumUnused. cbn. lia.
  - inversion Hl as [|? ? Ha Htl]; subst.
    destruct (Z.le_gt_cases (endOffset a) (startOffset b)) as [Hdis | Hnest].
    + destruct (IH (List.length (b :: m)) ltac:(cbn; lia) (b :: m) eq_refl Htl)
        as (t & Ht & Hb).
      rewrite findUsedAndUnused_disjoint, Ht by assumption.
      eexists. split; [reflexivity|]. cbn [bind _add used unused].
      change (sumUnused (a :: b :: m)) with (unused a + sumUnused (b :: m)).
      lia.
    + pose proof (takeWhile_dropWhile (startsInside a) m) as Hm.
      pose proof (length_takeWhile_le (startsInside a) m) as Hlt.
      pose proof (length_dropWhile_le (startsInside a) m) as Hld.
      set (sp := takeWhile (startsInside a) m) in *.
      set (rs := dropWhile (startsInside a) m) in *.
      assert (Hbm : b :: m = (b :: sp) ++ rs) by (cbn; now rewrite Hm).
      assert (Hsum : sumUnused (a :: b :: m)
                     = unused a + (sumUnused (b :: sp) + sumUnused rs)).
      { change (sumUnused (a :: b :: m)) with (unused a + sumUnused (b :: m)).
        now rewrite Hbm, sumUnused_app. }
      rewrite Hbm in Htl. apply Forall_app in Htl. destruct Htl as [Hsp Hrs].
      pose proof (sumUnused_nonneg _ Hsp) as Hsp0.
      destruct (IH (List.length (b :: sp)) ltac:(cbn; lia) (b :: sp) eq_refl Hsp)
        as (vi & Hi & Hbi).
      destruct (IH (List.length rs) ltac:(cbn [List.length]; lia) rs eq_refl
                  Hrs) as (vr & Hr & Hbr).
      destruct (isUsed a) eqn:Hu.
      * rewrite findUsedAndUnused_nested_used by assumption.
        cbv zeta. fold sp rs. rewrite Hi, Hr.
        eexists. split; [reflexivity|]. cbn [bind _add used unused]. lia.
      * rewrite findUsedAndUnused_nested_unused by assumption.
        fold rs. rewrite Hr.
        eexists. split; [reflexivity|]. cbn [bind _add used unused]. lia.
Qed.

(** The unused total is never negative and never more than the unused bytes
    that the ranges report themselves, whatever the order and the nesting of
    the ranges: gaps and edges only ever add to the used total. *)
Theorem unused_total_within_reported (l : list Range) :
  Forall (fun r : Range => 0 <= unused r) l ->
  exists v,
    findUsedAndUnused l = Normal v /\ 0 <= unused v <= sumUnused l.
Proof. exact (unused_bounded l). Qed.

Lemma unused_total_within_reported_witness :
  exists v,
    findUsedAndUnused
      [mkRange true 0 10; mkRange false 5 30; mkRange false 40 45]
    = Normal v /\
    0 <= unused v
    <= sumUnused [mkRange true 0 10; mkRange false 5 30; mkRange false 40 45].
Proof.
  apply unused_total_within_reported.
  repeat constructor; cbn; lia.
Defined.

(** On ranges with [endOffset > startOffset >= 0] and derived fields, sorted
    and properly nested, neither total is negative. *)
Theorem totals_not_negative_when_nested (l : list Range) :
  Forall (fun x : Range => wellFormed x) l ->
  Forall derived l ->
  sortedRanges l ->
  properlyNested l ->
  exists v,
    findUsedAndUnused l = Normal v /\ 0 <= used v /\ 0 <= unused v.
Proof.
  intros Hwf Hder Hs Hn.
  destruct (decomposition_of_nested l Hwf Hder
              (ForallOrdPairs_fits l Hwf Hs Hn)) as (v & Hv & Hu & Hun).
  now exists v.
Qed.

Lemma totals_not_negative_when_nested_witness :
  exists v,
    findUsedAndUnused
      [mkRange false 0 100; mkRange true 10 50; mkRange false 120 150]
    = Normal v /\ 0 <= used v /\ 0 <= unused v.
Proof.
  apply totals_not_negative_when_nested.
  - repeat constructor; cbn; lia.
  - repeat constructor.
  - each_pair; unfold precedes; cbn; lia.
  - each_pair; unfold laminar; cbn; lia.
Defined.

(** On a sequence without nesting, each range starting at or after the end
    of the one before, the used total is the used bytes of the ranges plus
    every gap between neighbours, and the unused total is the unused bytes
    of the ranges. *)
Theorem flat_sequence_totals (l : list Range) :
  flat l ->
  findUsedAndUnused l
  = Normal {| used := sumUsed l + sumGaps l; unused := sumUnused l |}.
Proof.
  induction l as [|a [|b m] IH]; intros Hflat.
  - now rewrite findUsedAndUnused_equation_1.
  - rewrite findUsedAndUnused_equation_2. unfold sumUsed, sumUnused. cbn.
    destruct a as [u s [us un] rw]. cbn. do 2 f_equal; lia.
  - destruct Hflat as [Hab Htl].
    rewrite findUsedAndUnused_disjoint, (IH Htl) by assumption.
    cbn [bind]. unfold _add. cbn [used unused]. f_equal.
    change (sumUsed (a :: b :: m)) with (used a + sumUsed (b :: m)).
    change (sumUnused (a :: b :: m)) with (unused a + sumUnused (b :: m)).
    change (sumGaps (a :: b :: m))
      with (startOffset b - endOffset a + sumGaps (b :: m)).
    f_equal; lia.
Qed.

Lemma flat_sequence_totals_witness :
  findUsedAndUnused
    [mkRange true 0 100; mkRange false 120 150; mkRange true 150 160]
  = Normal
      {| used :=
           sumUsed
             [mkRange true 0 100; mkRange false 120 150; mkRange true 150 160]
           + sumGaps
               [mkRange true 0 100; mkRange false 120 150;
                mkRange true 150 160];
         unused :=
           sumUnused
             [mkRange true 0 100; mkRange false 120 150; mkRange true 150 160]
      |}.
Proof.
  apply flat_sequence_totals. cbn. lia.
Defined.

(** ** Flattening and sorting in [computeWaste] *)

Lemma forEachRange_fold (rs : list CoverageRange) (used0 : bool)
  (acc : list Range) :
  fold_left forEachRange rs (used0, acc)
  = (used0 || existsb (fun r => 0 <? count r) rs,
     acc ++ map flattenRange rs).
Proof.
  revert used0 acc. induction rs as [|r tl IH]; intros used0 acc; cbn.
  - now rewrite orb_false_r, app_nil_r.
  - rewrite IH, orb_assoc, <- app_assoc. reflexivity.
Qed.

Lemma neverExecuted_existsb (func : FunctionCoverage) :
  neverExecuted func = negb (existsb (fun r => 0 <? count r) (ranges func)).
Proof.
  unfold neverExecuted. induction (ranges func) as [|r tl IH]; cbn;
    [reflexivity|].
  rewrite IH, negb_orb. reflexivity.
Qed.

Lemma forEachFunction_fold (fs : list FunctionCoverage) (n : nat)
  (acc : list Range) :
  fold_left forEachFunction fs (n, acc)
  = ((n + List.length (filter neverExecuted fs))%nat,
     acc ++ map flattenRange (flat_map ranges fs)).
Proof.
  revert n acc. induction fs as [|f tl IH]; intros n acc; cbn [fold_left].
  - cbn. now rewrite Nat.add_0_r, app_nil_r.
  - unfold forEachFunction at 2. rewrite forEachRange_fold. cbn [orb].
    rewrite IH. cbn [filter flat_map]. rewrite neverExecuted_existsb.
    rewrite map_app, app_assoc.
    destruct (existsb _ (ranges f)); cbn [negb List.length]; f_equal; lia.
Qed.

Lemma flattened_protocolRanges (script : Script.t) :
  flattened script = map flattenRange (protocolRanges script).
Proof.
  unfold flattened, protocolRanges. now rewrite forEachFunction_fold.
Qed.

Lemma flattenRange_derived (r : CoverageRange) : derived (flattenRange r).
Proof. repeat split. Qed.

Lemma compareRanges_precedes (a b : Range) :
  compareRanges a b <= 0 <-> precedes a b.
Proof.
  unfold compareRanges, precedes.
  destruct (Z.eqb_spec (startOffset a - startOffset b) 0); lia.
Qed.

Lemma precedes_trans (a b c : CoverageRange) :
  precedes a b -> precedes b c -> precedes a c.
Proof. unfold precedes. lia. Qed.

Lemma precedes_total (a b : CoverageRange) : precedes a b \/ precedes b a.
Proof. unfold precedes. lia. Qed.

Lemma insert_Permutation {A : Type} (compare : A -> A -> Z) (x : A)
  (l : list A) :
  Permutation (x :: l) (insert compare x l).
Proof.
  induction l as [|y tl IH]; cbn; [apply Permutation_refl|].
  destruct (compare x y <=? 0); [apply Permutation_refl|].
  eapply perm_trans; [apply perm_swap|]. now apply perm_skip.
Qed.

Lemma sort_Permutation {A : Type} (compare : A -> A -> Z) (l : list A) :
  Permutation l (sort compare l).
Proof.
  induction l as [|x tl IH]; cbn; [constructor|].
  eapply perm_trans; [|apply insert_Permutation]. now apply perm_skip.
Qed.

Lemma insert_sorted (x : Range) (l : list Range) :
  sortedRanges l -> sortedRanges (insert compareRanges x l).
Proof.
  unfold sortedRanges. induction 1 as [|y tl Hy Htl IH]; cbn.
  - repeat constructor.
  - destruct (Z.leb_spec (compareRanges x y) 0) as [Hle | Hgt].
    + apply compareRanges_precedes in Hle.
      constructor; [|now constructor].
      constructor; [assumption|].
      eapply Forall_impl; [|exact Hy]. cbn. intros z Hz.
      now apply precedes_trans with (b := y).
    + constructor; [|assumption].
      assert (Hyx : precedes y x).
      { destruct (precedes_total x y) as [H | H]; [|assumption].
        apply compareRanges_precedes in H. lia. }
      apply (Permutation_Forall (insert_Permutation compareRanges x tl)).
      now constructor.
Qed.

Lemma sort_sorted (l : list Range) : sortedRanges (sort compareRanges l).
Proof.
  induction l as [|x tl IH]; cbn; [constructor|]. now apply insert_sorted.
Qed.

(** [computeWaste] hands [findUsedAndUnused] what its precondition asks for:
    the protocol ranges of all functions, each with its derived fields, none
    lost and none added, ordered by start ascending and, among equal starts,
    by end descending. *)
Theorem computeWaste_sorts_for_the_decomposer (script : Script.t) :
  Permutation (map flattenRange (protocolRanges script))
    (sortedRangesOf script) /\
  sortedRanges (sortedRangesOf script) /\
  Forall derived (sortedRangesOf script).
Proof.
  unfold sortedRangesOf. rewrite flattened_protocolRanges.
  split; [apply sort_Permutation|]. split; [apply sort_sorted|].
  apply (Permutation_Forall (sort_Permutation compareRanges _)).
  apply Forall_forall. intros r Hr. apply in_map_iff in Hr.
  destruct Hr as (c & <- & _). apply flattenRange_derived.
Qed.

(** Sorting leaves ranges that are already in the decomposer's order as they
    are, ranges that compare equal included. *)
Theorem sort_keeps_sorted_ranges (l : list Range) :
  sortedRanges l -> sort compareRanges l = l.
Proof.
  unfold sortedRanges. induction 1 as [|x tl Hx Htl IH]; cbn;
    [reflexivity|].
  fold (sort compareRanges tl). rewrite IH.
  destruct tl as [|y tl']; cbn; [reflexivity|].
  inversion Hx as [|? ? Hxy _]; subst.
  apply compareRanges_precedes in Hxy.
  destruct (Z.leb_spec (compareRanges x y) 0); [reflexivity | lia].
Qed.

Lemma sort_keeps_sorted_ranges_witness :
  sort compareRanges
    [mkRange true 0 100; mkRange true 0 40; mkRange false 0 40;
     mkRange false 20 40]
  = [mkRange true 0 100; mkRange true 0 40; mkRange false 0 40;
     mkRange false 20 40].
Proof.
  apply sort_keeps_sorted_ranges.
  each_pair; unfold precedes; cbn; lia.
Defined.

Section WasteProperties.

Variable getDisplayName : string -> string.

(** [numUnused] counts the functions none of whose ranges was executed, a
    function without ranges among them; [url] is the display name of the
    script's URL and [totalBytes] the transfer size of the record. *)
Theorem computeWaste_counts_unused_functions (script : Script.t)
  (networkRecord : NetworkRecord.t) :
  exists result,
    computeWaste getDisplayName script networkRecord = Normal result /\
    WasteResult.numUnused result
    = List.length (filter neverExecuted (Script.functions script)) /\
    (WasteResult.numUnused result
     <= List.length (Script.functions script))%nat /\
    WasteResult.url result = getDisplayName (Script.url script) /\
    WasteResult.totalBytes result = NetworkRecord.transferSize networkRecord.
Proof.
  destruct (computeWaste_eq getDisplayName script networkRecord)
    as (v & _ & H).
  eexists. split; [exact H|]. cbn.
  rewrite forEachFunction_fold. cbn.
  split; [reflexivity|]. split; [apply filter_length_le|].
  split; reflexivity.
Qed.

End WasteProperties.

(** ** Further properties of [audit_] *)

(** Filtering results keeps their URLs distinct. *)
Lemma filter_distinct_urls (keep : WasteResult.t -> bool)
  (items : list WasteResult.t) :
  NoDup (map WasteResult.url items) ->
  NoDup (map WasteResult.url (filter keep items)).
Proof.
  intros Hnd. induction items as [|item tl IH]; cbn in *; [constructor|].
  inversion Hnd as [|? ? Hfresh Htl]; subst.
  specialize (IH Htl). destruct (keep item); cbn; [|exact IH].
  constructor; [|exact IH].
  contradict Hfresh. apply in_map_iff in Hfresh.
  destruct Hfresh as (other & Hurl & Hin). apply filter_In in Hin.
  apply in_map_iff. exists other. tauto.
Qed.

Section AggregationProperties.

Variable getDisplayName : string -> string.

(** The deduplication keeps, for every display URL, one sample, and no
    sample of that URL has fewer wasted bytes than the one kept; every entry
    is the sample of a script of [JsUsage], filed under its own URL. *)
Theorem duplicates_keep_a_smallest_sample (artifacts : Artifacts)
  (networkRecords : list NetworkRecord.t) :
  exists resultsMap,
    resultsMapOf getDisplayName artifacts networkRecords = Normal resultsMap /\
    NoDup (map fst resultsMap) /\
    (forall k kept,
       In (k, kept) resultsMap ->
       WasteResult.url kept = k /\
       exists script,
         In script (JsUsage artifacts) /\
         sampleOf getDisplayName networkRecords script = Some kept) /\
    (forall script result,
       In script (JsUsage artifacts) ->
       sampleOf getDisplayName networkRecords script = Some result ->
       exists kept,
         Map_get resultsMap (WasteResult.url result) = Some kept /\
         gt (WasteResult.wastedBytes kept) (WasteResult.wastedBytes result)
         = false).
Proof.
  destruct (reduceScripts_consolidated getDisplayName networkRecords
              (JsUsage artifacts) [] [] (consolidated_nil _ _))
    as (m & Hm & Hinv).
  exists m. split; [exact Hm | exact Hinv].
Qed.

(** The output holds at most one result per display URL, and every result
    is the sample of a script of [JsUsage] that has a network record. *)
Theorem audit_results_have_distinct_urls (artifacts : Artifacts)
  (networkRecords : list NetworkRecord.t) :
  exists out,
    audit_ getDisplayName artifacts networkRecords = Normal out /\
    NoDup (map WasteResult.url (results out)) /\
    forall item,
      In item (results out) ->
      exists script,
        In script (JsUsage artifacts) /\
        sampleOf getDisplayName networkRecords script = Some item.
Proof.
  destruct (reduceScripts_consolidated getDisplayName networkRecords
              (JsUsage artifacts) [] [] (consolidated_nil _ _))
    as (m & Hm & Hnd & Hentries & _).
  cbn [app] in Hentries.
  eexists. unfold audit_, resultsMapOf. rewrite Hm. cbn [bind].
  split; [reflexivity|]. cbn [results]. split.
  - apply filter_distinct_urls. unfold Map_values. rewrite map_map.
    erewrite map_ext_in; [exact Hnd|].
    intros [k v] Hin. cbn. now destruct (Hentries k v Hin).
  - intros item Hin. apply filter_In in Hin. destruct Hin as [Hin _].
    unfold Map_values in Hin. apply in_map_iff in Hin.
    destruct Hin as ([k v] & Heq & Hin). cbn in Heq. subst v.
    now destruct (Hentries k item Hin).
Qed.

Lemma consolidate_without_record (networkRecords : list NetworkRecord.t)
  (m : Map WasteResult.t) (script : Script.t) :
  find (fun record =>
          String.eqb (NetworkRecord.url record) (Script.url script))
    networkRecords = None ->
  consolidate getDisplayName networkRecords m script = Normal m.
Proof. intros H. unfold consolidate. now rewrite H. Qed.

(** A script whose URL is the URL of no network record is passed over: the
    audit returns what it returns without that script. *)
Theorem script_without_record_is_passed_over
  (before after : list Script.t) (script : Script.t)
  (networkRecords : list NetworkRecord.t) :
  find (fun record =>
          String.eqb (NetworkRecord.url record) (Script.url script))
    networkRecords = None ->
  audit_ getDisplayName {| JsUsage := before ++ script :: after |}
    networkRecords
  = audit_ getDisplayName {| JsUsage := before ++ after |} networkRecords.
Proof.
  intros H. unfold audit_, resultsMapOf. cbn [JsUsage].
  rewrite !reduceScripts_app. cbn [reduceScripts].
  destruct (reduceScripts getDisplayName networkRecords before [])
    as [m|e]; cbn [bind]; [|reflexivity].
  now rewrite consolidate_without_record.
Qed.

(** Without network records, and so for any scripts, the audit returns no
    result. *)
Theorem audit_without_network_records (artifacts : Artifacts) :
  exists out,
    audit_ getDisplayName artifacts [] = Normal out /\ results out = [].
Proof.
  assert (H : forall scripts m,
            reduceScripts getDisplayName [] scripts m = Normal m).
  { induction scripts as [|s tl IH]; intros m; cbn; [reflexivity|].
    apply IH. }
  eexists. unfold audit_, resultsMapOf. rewrite H. cbn.
  split; reflexivity.
Qed.

End AggregationProperties.

Lemma script_without_record_is_passed_over_witness :
  audit_ wholeUrl {| JsUsage := [scriptB] ++ scriptA :: [scriptBDuplicate] |}
    [recordB]
  = audit_ wholeUrl {| JsUsage := [scriptB] ++ [scriptBDuplicate] |}
      [recordB].
Proof.
  apply script_without_record_is_passed_over. reflexivity.
Defined.

(** ** Integers as Numbers *)

Lemma digits2_pos_bounds (p : positive) :
  2 ^ (Zpos (digits2_pos p) - 1) <= Zpos p < 2 ^ Zpos (digits2_pos p).
Proof.
  induction p as [p IH | p IH |]; cbn [digits2_pos].
  - rewrite Pos2Z.inj_succ.
    replace (Z.succ (Zpos (digits2_pos p)) - 1)
      with (Z.succ (Zpos (digits2_pos p) - 1)) by lia.
    rewrite !Z.pow_succ_r by lia. lia.
  - rewrite Pos2Z.inj_succ.
    replace (Z.succ (Zpos (digits2_pos p)) - 1)
      with (Z.succ (Zpos (digits2_pos p) - 1)) by lia.
    rewrite !Z.pow_succ_r by lia. lia.
  - cbn. lia.
Qed.

Lemma digits2_pos_le (p : positive) (n : Z) :
  Zpos p < 2 ^ n -> Zpos (digits2_pos p) <= n.
Proof.
  intros H. pose proof (digits2_pos_bounds p) as [Hlo _].
  destruct (Z.le_gt_cases (Zpos (digits2_pos p)) n) as [|Hgt]; [assumption|].
  assert (2 ^ n <= 2 ^ (Zpos (digits2_pos p) - 1)); [|lia].
  destruct (Z.le_gt_cases 0 n).
  - apply Z.pow_le_mono_r; lia.
  - rewrite (Z.pow_neg_r 2 n) by lia. apply Z.pow_nonneg. lia.
Qed.

Lemma digits2_pos_iter_xO (p d : positive) :
  digits2_pos (Pos.iter xO p d) = (digits2_pos p + d)%positive.
Proof.
  induction d as [|d IH] using Pos.peano_ind.
  - cbn. lia.
  - rewrite Pos.iter_succ. cbn [digits2_pos]. rewrite IH. lia.
Qed.

Lemma iter_xO_value (p d : positive) :
  Zpos (Pos.iter xO p d) = Zpos p * 2 ^ Zpos d.
Proof.
  induction d as [|d IH] using Pos.peano_ind.
  - cbn. lia.
  - rewrite Pos.iter_succ, Pos2Z.inj_xO, IH, Pos2Z.inj_succ, Z.pow_succ_r
      by lia. lia.
Qed.

(** Rounding a mantissa that already has its place changes nothing. *)
Lemma binary_round_aux_canonical (s : bool) (m : positive) (e : Z) :
  fexp prec emax (Zpos (digits2_pos m) + e) = e ->
  e <= emax - prec ->
  binary_round_aux prec emax s (Zpos m) e loc_Exact = S754_finite s m e.
Proof.
  intros Hc He. unfold binary_round_aux, shr_fexp.
  cbn [Zdigits2 shr_record_of_loc]. rewrite Hc, Z.sub_diag.
  cbn [shr shr_m loc_of_shr_record round_nearest_even Zdigits2
         shr_record_of_loc].
  rewrite Hc, Z.sub_diag. cbn [shr shr_m].
  destruct (Z.leb_spec e (emax - prec)); [reflexivity | lia].
Qed.

(** A positive integer below 2^53 is a Number as it is. *)
Lemma binary_round_safe (s : bool) (p : positive) :
  Zpos p < 2 ^ 53 ->
  exists m e,
    binary_round prec emax s p 0 = S754_finite s m e /\
    e <= 0 /\ Zpos m = Zpos p * 2 ^ (- e) /\
    fexp prec emax (Zpos (digits2_pos m) + e) = e.
Proof.
  intros Hp. pose proof (digits2_pos_le p 53 Hp) as Hd.
  unfold binary_round, shl_align.
  assert (Hf : fexp prec emax (Zpos (digits2_pos p) + 0)
               = Zpos (digits2_pos p) - 53)
    by (unfold fexp, emin, prec, emax; lia).
  rewrite Hf. remember (Zpos (digits2_pos p) - 53 - 0) as k eqn:Hk.
  destruct k as [|k|k].
  - exists p, 0. rewrite binary_round_aux_canonical.
    + repeat split; try lia; unfold fexp, emin, prec, emax; lia.
    + unfold fexp, emin, prec, emax. lia.
    + unfold prec, emax. lia.
  - lia.
  - exists (Pos.iter xO p k), (Zpos (digits2_pos p) - 53).
    assert (Hc : fexp prec emax
                   (Zpos (digits2_pos (Pos.iter xO p k))
                    + (Zpos (digits2_pos p) - 53))
                 = Zpos (digits2_pos p) - 53).
    { rewrite digits2_pos_iter_xO. unfold fexp, emin, prec, emax. lia. }
    rewrite binary_round_aux_canonical;
      [|exact Hc | unfold prec, emax; lia].
    split; [reflexivity|]. split; [lia|]. split; [|exact Hc].
    rewrite iter_xO_value. f_equal. f_equal. lia.
Qed.

Lemma of_Z_safe_nonneg (z : Z) :
  0 <= z < 2 ^ 53 ->
  of_Z z = S754_zero false \/ exists m e, of_Z z = S754_finite false m e.
Proof.
  intros [H0 Hz]. destruct z as [|p|p]; [now left | | lia].
  right. destruct (binary_round_safe false p Hz) as (m & e & H & _).
  exists m, e. exact H.
Qed.

(** ** Scripts without unused bytes *)

Lemma wastedRatioOf_no_unused (v : UsedUnused) :
  unused v = 0 -> wastedRatioOf v = zero.
Proof.
  intros H. unfold wastedRatioOf. rewrite H. cbn [Z.add].
  change (of_Z 0) with (S754_zero false).
  unfold div, SFdiv. destruct (of_Z (used v)) as [s|s| |s m e];
    reflexivity.
Qed.

Lemma mul_safe_zero (t : Z) :
  0 <= t < 2 ^ 53 -> mul (of_Z t) zero = zero.
Proof.
  intros Ht. destruct (of_Z_safe_nonneg t Ht) as [H | (m & e & H)];
    rewrite H; reflexivity.
Qed.

Section NoWaste.

Variable getDisplayName : string -> string.

(** When the decomposition finds no unused byte, as for a script without
    any range, where the ratio is 0 / 0, the result has 0 wasted percent
    and, for a transfer size below 2^53, 0 wasted bytes. *)
Theorem no_unused_bytes_no_waste (script : Script.t)
  (networkRecord : NetworkRecord.t) (v : UsedUnused) :
  findUsedAndUnused (sortedRangesOf script) = Normal v ->
  unused v = 0 ->
  0 <= NetworkRecord.transferSize networkRecord < 2 ^ 53 ->
  exists result,
    computeWaste getDisplayName script networkRecord = Normal result /\
    WasteResult.wastedPercent result = zero /\
    WasteResult.wastedBytes result = zero.
Proof.
  intros Hv Hu Ht.
  destruct (computeWaste_eq getDisplayName script networkRecord)
    as (v' & Hv' & H).
  rewrite Hv in Hv'. inversion Hv'; subst v'.
  eexists. split; [exact H|]. cbn [WasteResult.wastedPercent
                                    WasteResult.wastedBytes].
  rewrite wastedRatioOf_no_unused by assumption.
  rewrite (mul_safe_zero (NetworkRecord.transferSize networkRecord))
    by assumption.
  split; reflexivity.
Qed.

(** A script all of whose ranges were executed has no unused bytes,
    whatever the offsets of the ranges. *)
Theorem executed_script_has_no_unused_bytes (script : Script.t) :
  Forall (fun r => 0 < count r) (protocolRanges script) ->
  exists v,
    findUsedAndUnused (sortedRangesOf script) = Normal v /\ unused v = 0.
Proof.
  intros Hall.
  assert (Hzero : Forall (fun r : Range => unused r = 0)
                    (sortedRangesOf script)).
  { unfold sortedRangesOf. rewrite flattened_protocolRanges.
    apply (Permutation_Forall (sort_Permutation compareRanges _)).
    apply Forall_forall. intros r Hr. apply in_map_iff in Hr.
    destruct Hr as (c & <- & Hc). rewrite Forall_forall in Hall.
    specialize (Hall c Hc). cbn.
    destruct (Z.ltb_spec 0 (count c)); [reflexivity | lia]. }
  destruct (unused_bounded (sortedRangesOf script)) as (v & Hv & Hb).
  { eapply Forall_impl; [|exact Hzero]. cbn. intros; lia. }
  exists v. split; [assumption|].
  assert (Hs : sumUnused (sortedRangesOf script) = 0).
  { clear - Hzero. induction Hzero as [|r tl Hr _ IH]; [reflexivity|].
    unfold sumUnused in *. cbn. lia. }
  lia.
Qed.

End NoWaste.

Lemma no_unused_bytes_no_waste_witness :
  exists result,
    computeWaste wholeUrl scriptA recordA = Normal result /\
    WasteResult.wastedPercent result = zero /\
    WasteResult.wastedBytes result = zero.
Proof.
  apply (no_unused_bytes_no_waste wholeUrl scriptA recordA
           {| used := 100; unused := 0 |}).
  - vm_compute. reflexivity.
  - reflexivity.
  - cbn. lia.
Defined.

Lemma executed_script_has_no_unused_bytes_witness :
  exists v,
    findUsedAndUnused (sortedRangesOf scriptA) = Normal v /\ unused v = 0.
Proof.
  apply executed_script_has_no_unused_bytes.
  repeat constructor.
Defined.

(** ** A resource without instrumented bytes *)

Section DegenerateRatio.

Variable getDisplayName : string -> string.

(** C6, as amended.  When the totals of the decomposition add up to 0 and
    neither is negative, as for a script without ranges, the ratio is
    [0 / 0], which is NaN and is replaced by 0: for a transfer size that is
    an integer in [0, 2^53), the result has 0 wasted bytes and 0 wasted
    percent. *)
Theorem zero_totals_give_zero_waste (script : Script.t)
  (networkRecord : NetworkRecord.t) (v : UsedUnused) :
  findUsedAndUnused (sortedRangesOf script) = Normal v ->
  used v + unused v = 0 ->
  0 <= used v ->
  0 <= unused v ->
  0 <= NetworkRecord.transferSize networkRecord < 2 ^ 53 ->
  div (of_Z (unused v)) (of_Z (unused v + used v)) = S754_nan /\
  wastedRatioOf v = zero /\
  exists result,
    computeWaste getDisplayName script networkRecord = Normal result /\
    WasteResult.wastedBytes result = zero /\
    WasteResult.wastedPercent result = zero.
Proof.
  intros Hv Hsum Hu Hn Ht.
  assert (Hun : unused v = 0) by lia.
  assert (Hus : used v = 0) by lia.
  split; [rewrite Hun, Hus; reflexivity|].
  split; [now apply wastedRatioOf_no_unused|].
  destruct (computeWaste_eq getDisplayName script networkRecord)
    as (v' & Hv' & H).
  rewrite Hv in Hv'. inversion Hv'; subst v'.
  eexists. split; [exact H|].
  cbn [WasteResult.wastedPercent WasteResult.wastedBytes].
  rewrite wastedRatioOf_no_unused by assumption.
  rewrite (mul_safe_zero (NetworkRecord.transferSize networkRecord))
    by assumption.
  split; reflexivity.
Qed.

End DegenerateRatio.

Lemma zero_totals_give_zero_waste_witness :
  let script := generateScript "empty.js" [] in
  let networkRecord := generateRecord "empty.js" 1000 in
  div (of_Z 0) (of_Z (0 + 0)) = S754_nan /\
  wastedRatioOf {| used := 0; unused := 0 |} = zero /\
  exists result,
    computeWaste wholeUrl script networkRecord = Normal result /\
    WasteResult.wastedBytes result = zero /\
    WasteResult.wastedPercent result = zero.
Proof.
  cbv zeta.
  apply (zero_totals_give_zero_waste wholeUrl (generateScript "empty.js" [])
           (generateRecord "empty.js" 1000) {| used := 0; unused := 0 |}).
  - vm_compute. reflexivity.
  - reflexivity.
  - cbn. lia.
  - cbn. lia.
  - cbn. lia.
Defined.

(** ** Duplicate samples of one URL *)

Section Duplicates.

Variable getDisplayName : string -> string.

(** C7, as amended.  The deduplication holds each URL at most once.  For
    every script of [JsUsage] that has a network record of its URL, it holds
    under the URL of the script's result one result, which is the result of
    a script of [JsUsage] with that URL and has no more wasted bytes than the
    script's own; that result is in the output exactly when its wasted bytes
    exceed the threshold, and the output holds no other result of that URL.
    A script without a network record of its URL has no result, and the
    output is the one of the audit without that script. *)
Theorem duplicates_resolved_by_smallest_waste (artifacts : Artifacts)
  (networkRecords : list NetworkRecord.t) :
  exists resultsMap out,
    resultsMapOf getDisplayName artifacts networkRecords = Normal resultsMap /\
    audit_ getDisplayName artifacts networkRecords = Normal out /\
    NoDup (map fst resultsMap) /\
    NoDup (map WasteResult.url (results out)) /\
    (forall script result,
       In script (JsUsage artifacts) ->
       sampleOf getDisplayName networkRecords script = Some result ->
       exists kept,
         Map_get resultsMap (WasteResult.url result) = Some kept /\
         WasteResult.url kept = WasteResult.url result /\
         (exists script',
            In script' (JsUsage artifacts) /\
            sampleOf getDisplayName networkRecords script' = Some kept) /\
         gt (WasteResult.wastedBytes kept) (WasteResult.wastedBytes result)
         = false /\
         (In kept (results out)
          <-> gt (WasteResult.wastedBytes kept) (of_Z 2048) = true) /\
         (forall item,
            In item (results out) ->
            WasteResult.url item = WasteResult.url result ->
            item = kept)) /\
    (forall before script after,
       JsUsage artifacts = before ++ script :: after ->
       find (fun record =>
               String.eqb (NetworkRecord.url record) (Script.url script))
         networkRecords = None ->
       sampleOf getDisplayName networkRecords script = None /\
       audit_ getDisplayName {| JsUsage := before ++ after |} networkRecords
       = Normal out).
Proof.
  destruct (reduceScripts_consolidated getDisplayName networkRecords
              (JsUsage artifacts) [] [] (consolidated_nil _ _))
    as (m & Hm & Hnd & Hentries & Hsamples).
  cbn [app] in Hentries, Hsamples.
  assert (Hurls : map WasteResult.url (Map_values m) = map fst m).
  { unfold Map_values. rewrite map_map. apply map_ext_in.
    intros [k v] Hin. cbn. now destruct (Hentries k v Hin). }
  assert (Hitem : forall item,
            In item (Map_values m) ->
            Map_get m (WasteResult.url item) = Some item).
  { intros item Hin. unfold Map_values in Hin. apply in_map_iff in Hin.
    destruct Hin as ([k v] & Heq & Hin). cbn in Heq. subst v.
    destruct (Hentries k item Hin) as [Hk _]. rewrite Hk.
    now apply In_Map_get. }
  exists m. eexists. unfold audit_ at 1, resultsMapOf at 1 2.
  rewrite Hm. cbn [bind].
  split; [reflexivity|]. split; [reflexivity|]. split; [exact Hnd|].
  cbn [results]. split; [|split].
  - apply filter_distinct_urls. now rewrite Hurls.
  - intros script result Hin Hs.
    destruct (Hsamples script result Hin Hs) as (kept & Hget & Hle).
    exists kept. pose proof (Map_get_In _ _ _ Hget) as Hkept.
    destruct (Hentries _ _ Hkept) as [Hk Hfrom].
    split; [exact Hget|]. split; [exact Hk|]. split; [exact Hfrom|].
    split; [exact Hle|]. split.
    + rewrite filter_In. unfold aboveThreshold, IGNORE_THRESHOLD_IN_BYTES.
      split; [tauto|]. intros Hgt. split; [|exact Hgt].
      unfold Map_values. apply in_map_iff.
      now exists (WasteResult.url result, kept).
    + intros item Hitem_in Hurl. apply filter_In in Hitem_in.
      destruct Hitem_in as [Hitem_in _].
      apply Hitem in Hitem_in. rewrite Hurl, Hget in Hitem_in.
      now inversion Hitem_in.
  - intros before script after Hjs Hfind. split.
    + unfold sampleOf. now rewrite Hfind.
    + unfold audit_, resultsMapOf. cbn [JsUsage].
      unfold resultsMapOf in Hm. rewrite Hjs in Hm.
      rewrite reduceScripts_app in Hm. rewrite reduceScripts_app.
      cbn [reduceScripts] in Hm.
      destruct (reduceScripts getDisplayName networkRecords before [])
        as [m0|e]; cbn [bind] in *; [|discriminate].
      unfold consolidate in Hm. rewrite Hfind in Hm. cbn [bind] in Hm.
      rewrite Hm. reflexivity.
Qed.

End Duplicates.

Lemma duplicates_resolved_by_smallest_waste_witness :
  let unmatched := generateScript "unmatched.js" [(0, 100, false)] in
  let artifacts :=
    {| JsUsage :=
         [scriptA; scriptADuplicate; scriptB; scriptBDuplicate; unmatched] |} in
  let networkRecords := [recordA; recordB] in
  exists lower higher out,
    audit_ wholeUrl artifacts networkRecords = Normal out /\
    sampleOf wholeUrl networkRecords scriptB = Some lower /\
    WasteResult.wastedBytes lower = of_Z 25000 /\
    sampleOf wholeUrl networkRecords scriptBDuplicate = Some higher /\
    WasteResult.wastedBytes higher = of_Z 50000 /\
    In lower (results out) /\
    ~ In higher (results out) /\
    sampleOf wholeUrl networkRecords unmatched = None /\
    audit_ wholeUrl
      {| JsUsage := [scriptA; scriptADuplicate; scriptB; scriptBDuplicate] |}
      networkRecords
    = Normal out.
Proof.
  cbv zeta.
  destruct (duplicates_resolved_by_smallest_waste wholeUrl
              {| JsUsage :=
                   [scriptA; scriptADuplicate; scriptB; scriptBDuplicate;
                    generateScript "unmatched.js" [(0, 100, false)]] |}
              [recordA; recordB])
    as (m & out & Hm & Hout & _ & _ & Hsamples & Hdrop).
  eexists. eexists. exists out.
  split; [exact Hout|].
  split; [vm_compute; reflexivity|]. split; [vm_compute; reflexivity|].
  split; [vm_compute; reflexivity|]. split; [vm_compute; reflexivity|].
  edestruct (Hsamples scriptBDuplicate)
    as (kept & Hget & _ & _ & _ & Hin & Huniq);
    [right; right; right; left; reflexivity | vm_compute; reflexivity |].
  vm_compute in Hm. inversion Hm; subst m. clear Hm.
  vm_compute in Hget. inversion Hget; subst kept. clear Hget.
  split; [apply Hin; vm_compute; reflexivity|].
  split.
  { intros Hh. specialize (Huniq _ Hh eq_refl). discriminate Huniq. }
  exact (Hdrop [scriptA; scriptADuplicate; scriptB; scriptBDuplicate]
           (generateScript "unmatched.js" [(0, 100, false)]) []
           eq_refl eq_refl).
Defined.

(** ** The ratio of two integers *)








Section Ratio.

Variable getDisplayName : string -> string.


End Ratio.


(** ** Bounds of the waste *)

(** *** Shifting and rounding of mantissas *)













(** *** Division and multiplication of normal Numbers *)











(** *** The waste of a script *)







Section Bounds.

Variable getDisplayName : string -> string.


End Bounds.

